(** * JWK store: key rotation and key exposure

    A shallow embedding of [src/lib/types-internals.ts] (the JWK store
    library of the OAuth2 mock server): the [KeyRotator] class, the
    [JWKStore] facade and the private-field removers used when the key set
    is serialised.

    JavaScript objects live in a heap and are handled through references,
    as in the source: the rotator's [#keys] array holds references, [get]
    and [generate] hand out the stored object itself, and [{ ...obj }]
    allocates a new object.  Exceptions keep the state reached when they
    are thrown. *)

From Stdlib Require Import ZArith Strings.Byte Ascii.
From stdpp Require Import base option list gmap strings fin_maps.

(** ** Values, objects and the heap *)

Abbreviation loc := nat.

(** The JavaScript values a JWK property can hold.  [VUndef] is what
    reading a missing property gives. *)
Inductive Value : Type :=
| VUndef
| VNull
| VBool (b : bool)
| VNum (z : Z)
| VStr (s : string)
| VRef (l : loc).

#[global] Instance Value_eq_dec : EqDecision Value.
Proof. solve_decision. Defined.

(** An object is a finite map from property names to values. *)
Abbreviation Obj := (gmap string Value).

(** [o.k] *)
Definition getProp (o : Obj) (k : string) : Value := default VUndef (o !! k).

(** [a === b] on the values above. *)
Definition strict_eq (a b : Value) : bool := bool_decide (a = b).

Abbreviation Heap := (list Obj).

Definition deref (h : Heap) (l : loc) : Obj := default ∅ (h !! l).

(** ** Randomness: [crypto.randomBytes] *)

(** The entropy source is an arbitrary infinite sequence of bytes; a read
    consumes a prefix of it. *)
Definition Entropy := nat → byte.

Definition randomBytes (n : nat) (e : Entropy) : list byte * Entropy :=
  (map e (seq 0 n), λ i, e (n + i)%nat).

Definition hexDigit (n : N) : ascii :=
  match n with
  | 0 => "0" | 1 => "1" | 2 => "2" | 3 => "3" | 4 => "4" | 5 => "5"
  | 6 => "6" | 7 => "7" | 8 => "8" | 9 => "9" | 10 => "a" | 11 => "b"
  | 12 => "c" | 13 => "d" | 14 => "e" | _ => "f"
  end%N%char.

(** [Buffer.prototype.toString('hex')]: two lower-case digits per byte. *)
Fixpoint toHex (bs : list byte) : string :=
  match bs with
  | [] => EmptyString
  | b :: bs' =>
      String (hexDigit (Byte.to_N b / 16)) (String (hexDigit (Byte.to_N b mod 16)) (toHex bs'))
  end.

Definition isHexDigit (c : ascii) : bool :=
  bool_decide (c ∈ String.list_ascii_of_string "0123456789abcdef").

(** ** External collaborators' data *)

Inductive KeyObjectType : Type := secret | public | private.

(** jose's [KeyLike]: a node [KeyObject] or a WebCrypto [CryptoKey]; the key
    behind it is opaque ([handle]). *)
Inductive KeyLike : Type :=
| KeyObject (type : KeyObjectType) (handle : N)
| CryptoKey (type : KeyObjectType) (handle : N).

(** What [parseJwk] resolves to: [KeyLike | Uint8Array]. *)
Inductive ParsedKey : Type :=
| PKeyLike (k : KeyLike)
| PUint8Array (bytes : list byte).

Record KeyPair : Type := { privateKey : KeyLike; publicKey : KeyLike }.

(** [GenerateKeyPairOptions], as far as the store fills it in. *)
Record GenerateKeyPairOptions : Type := { gen_crv : option string }.

(** The [opts] argument of [generate]: [{ kid?: string; crv?: string }]. *)
Record Opts : Type := { opt_kid : option string; opt_crv : option string }.

(** ** Errors, state and the computation monad *)

Inductive Error : Type :=
| UnspecifiedAlg                  (* Error('Unspecified JWK "alg" property') *)
| UnsupportedAlg (alg : Value)    (* Error(`Unsupported JWK "alg" value ("${alg}")`) *)
| InvalidJwkType                  (* Error('Invalid JWK type. No "private" key related data has been found.') *)
| MissingAlgField                 (* AssertionError('Missing "alg" field') *)
| TypeError                       (* thrown by the runtime *)
| CollaboratorError (msg : string) (* whatever jose throws *).

Inductive Result (A : Type) : Type :=
| Ok (a : A)
| Thrown (e : Error).
Arguments Ok {A} a.
Arguments Thrown {A} e.

Record State : Type := mkState {
  heap : Heap;            (* the objects created so far *)
  keys : list loc;        (* KeyRotator.#keys *)
  entropy : Entropy;      (* what the random source will give next *)
}.

Definition M (A : Type) : Type := State → Result A * State.

Definition ret {A} (a : A) : M A := λ st, (Ok a, st).

Definition bind {A B} (m : M A) (f : A → M B) : M B :=
  λ st, match m st with
        | (Ok a, st') => f a st'
        | (Thrown e, st') => (Thrown e, st')
        end.

Definition throw {A} (e : Error) : M A := λ st, (Thrown e, st).

Notation "'let*' x ':=' m 'in' k" := (bind m (λ x, k))
  (at level 10, x name, m at level 100, k at level 200).

(** [{ ...o }] and object literals: a new object. *)
Definition alloc (o : Obj) : M loc :=
  λ st, (Ok (length (heap st)), mkState (heap st ++ [o]) (keys st) (entropy st)).

Definition readObj (l : loc) : M Obj := λ st, (Ok (deref (heap st) l), st).

(** [l.k] *)
Definition readProp (l : loc) (k : string) : M Value :=
  λ st, (Ok (getProp (deref (heap st) l) k), st).

(** [l.k = v] *)
Definition writeProp (l : loc) (k : string) (v : Value) : M unit :=
  λ st, (Ok tt, mkState (alter (insert k v) l (heap st)) (keys st) (entropy st)).

(** [delete l[k]] *)
Definition deleteProp (l : loc) (k : string) : M unit :=
  λ st, (Ok tt, mkState (alter (delete k) l (heap st)) (keys st) (entropy st)).

(** [{ ...l }] *)
Definition spread (l : loc) : M loc := let* o := readObj l in alloc o.

(** ** Module-level helpers of the source *)

Definition generateRandomKid : M string :=
  λ st, let '(bs, e') := randomBytes 40 (entropy st) in
        (Ok (toHex bs), mkState (heap st) (keys st) e').

Definition removeKey (k : string) (obj : loc) : M loc :=
  let* x := spread obj in
  let* _ := deleteProp x k in
  ret x.

(** [Array.prototype.reduce] with an initial value. *)
Fixpoint reduce {A B} (f : B → A → M B) (l : list A) (init : B) : M B :=
  match l with
  | [] => ret init
  | x :: l' => let* r := f init x in reduce f l' r
  end.

Definition removeKeys (ks : list string) (o : loc) : M loc :=
  reduce (λ r k, removeKey k r) ks o.

Inductive JwkTransformer : Type :=
| RsaPrivateFieldsRemover
| EcdsaPrivateFieldsRemover
| EddsaPrivateFieldsRemover.

(** The key list each remover passes to [removeKeys]. *)
Definition removedFields (t : JwkTransformer) : list string :=
  match t with
  | RsaPrivateFieldsRemover => ["d"; "p"; "q"; "dp"; "dq"; "qi"]
  | EcdsaPrivateFieldsRemover => ["d"]
  | EddsaPrivateFieldsRemover => ["d"]
  end.

Definition applyTransformer (t : JwkTransformer) (jwk : loc) : M loc :=
  removeKeys (removedFields t) jwk.

(** The own properties of the object literal, in source order. *)
Definition privateToPublicTransformerMap : list (string * JwkTransformer) :=
  [ ("RS256", RsaPrivateFieldsRemover);
    ("RS384", RsaPrivateFieldsRemover);
    ("RS512", RsaPrivateFieldsRemover);
    ("PS256", RsaPrivateFieldsRemover);
    ("PS384", RsaPrivateFieldsRemover);
    ("PS512", RsaPrivateFieldsRemover);
    ("ES256", EcdsaPrivateFieldsRemover);
    ("ES256K", EcdsaPrivateFieldsRemover);
    ("ES384", EcdsaPrivateFieldsRemover);
    ("ES512", EcdsaPrivateFieldsRemover);
    ("EdDSA", EddsaPrivateFieldsRemover) ].

(** [Object.keys(privateToPublicTransformerMap)] *)
Definition supportedAlgs : list string := privateToPublicTransformerMap.*1.

Fixpoint assoc {A} (k : string) (l : list (string * A)) : option A :=
  match l with
  | [] => None
  | (k', a) :: l' => if decide (k = k') then Some a else assoc k l'
  end.

(** The map is an object literal, so its prototype is [Object.prototype]:
    property lookup and the [in] operator also see the members inherited
    from there. *)
Inductive ObjectPrototypeMember : Type :=
| proto_constructor
| proto_defineGetter
| proto_defineSetter
| proto_hasOwnProperty
| proto_lookupGetter
| proto_lookupSetter
| proto_isPrototypeOf
| proto_propertyIsEnumerable
| proto_toString
| proto_valueOf
| proto_proto
| proto_toLocaleString.

Definition ObjectPrototype : list (string * ObjectPrototypeMember) :=
  [ ("constructor", proto_constructor);
    ("__defineGetter__", proto_defineGetter);
    ("__defineSetter__", proto_defineSetter);
    ("hasOwnProperty", proto_hasOwnProperty);
    ("__lookupGetter__", proto_lookupGetter);
    ("__lookupSetter__", proto_lookupSetter);
    ("isPrototypeOf", proto_isPrototypeOf);
    ("propertyIsEnumerable", proto_propertyIsEnumerable);
    ("toString", proto_toString);
    ("valueOf", proto_valueOf);
    ("__proto__", proto_proto);
    ("toLocaleString", proto_toLocaleString) ].

Inductive MapMember : Type :=
| OwnMember (t : JwkTransformer)
| InheritedMember (m : ObjectPrototypeMember).

(** [privateToPublicTransformerMap[k]]: own properties first, then the
    prototype. *)
Definition mapGet (k : string) : option MapMember :=
  match assoc k privateToPublicTransformerMap with
  | Some t => Some (OwnMember t)
  | None => InheritedMember <$> assoc k ObjectPrototype
  end.

(** [k in privateToPublicTransformerMap] *)
Definition mapHas (k : string) : bool := bool_decide (is_Some (mapGet k)).

(** [cleaner(key)]: the call of whatever the lookup returned, with [key] as
    its only argument and no receiver.  The removers copy; [Object(key)]
    returns its argument; [Object.prototype.toString] answers for the
    missing receiver; the [__proto__] accessor yields [Object.prototype],
    which is not callable; every other inherited method starts by
    converting its missing receiver to an object and throws. *)
Definition callMember (m : MapMember) (key : loc) : M Value :=
  match m with
  | OwnMember t => let* r := applyTransformer t key in ret (VRef r)
  | InheritedMember proto_constructor => ret (VRef key)
  | InheritedMember proto_toString => ret (VStr "[object Undefined]")
  | InheritedMember _ => throw TypeError
  end.

(** Modelled from the spec: [assertIsString] of [./helpers], which is not
    part of the sources at hand; the spec's MissingRequiredField error is
    raised when a record has no string [alg] at export time. *)
Definition assertIsString (input : Value) (errorMessage : Error) : M unit :=
  match input with
  | VStr _ => ret tt
  | _ => throw errorMessage
  end.

Definition normalizeKey (jwk : loc) (opts : option Opts) : M unit :=
  let* kid := readProp jwk "kid" in
  if negb (strict_eq kid VUndef) then ret tt
  else
    match opts with
    | Some {| opt_kid := Some k |} => writeProp jwk "kid" (VStr k)
    | _ => let* r := generateRandomKid in writeProp jwk "kid" (VStr r)
    end.

(** ** Array operations used on [#keys] *)

Fixpoint findIndexFrom {A} (p : A → bool) (l : list A) (i : Z) : Z :=
  match l with
  | [] => -1
  | x :: l' => if p x then i else findIndexFrom p l' (i + 1)
  end%Z.

(** [Array.prototype.findIndex]: the first index whose element satisfies
    [p], or [-1]. *)
Definition findIndex {A} (p : A → bool) (l : list A) : Z := findIndexFrom p l 0.

(** [Array.prototype.splice(start, deleteCount)]: the removed elements and
    what is left of the array. *)
Definition splice {A} (start deleteCount : Z) (l : list A) : list A * list A :=
  let len := Z.of_nat (length l) in
  let actualStart :=
    if (start <? 0)%Z then Z.max (len + start) 0 else Z.min start len in
  let actualDeleteCount := Z.min (Z.max deleteCount 0) (len - actualStart) in
  let s := Z.to_nat actualStart in
  let d := Z.to_nat actualDeleteCount in
  (take d (drop s l), take s l ++ drop (s + d) l).

#[global] Arguments splice : simpl never.
#[global] Arguments findIndex : simpl never.

(** [supportedAlgs.includes(v)] *)
Definition includes (l : list string) (v : Value) : bool :=
  match v with
  | VStr s => bool_decide (s ∈ l)
  | _ => false
  end.

(** ** class KeyRotator *)

Module KeyRotator.

Definition keysSplice (start deleteCount : Z) : M (list loc) :=
  λ st, let '(removed, rest) := splice start deleteCount (keys st) in
        (Ok removed, mkState (heap st) rest (entropy st)).

Definition keysPush (key : loc) : M unit :=
  λ st, (Ok tt, mkState (heap st) (keys st ++ [key]) (entropy st)).

Definition findNext (kid : Value) : M Z :=
  λ st,
    if bool_decide (length (keys st) = 0) then (Ok (-1)%Z, st)
    else if strict_eq kid VUndef then (Ok 0%Z, st)
    else (Ok (findIndex (λ x, strict_eq (getProp (deref (heap st) x) "kid") kid)
                (keys st)), st).

Definition add (key : loc) : M unit :=
  let* kid := readProp key "kid" in
  let* pos := findNext kid in
  let* _ := (if (pos >? -1)%Z
             then let* _ := keysSplice pos 1 in ret tt
             else ret tt) in
  keysPush key.

(** With an index outside the array [splice] removes nothing and the
    source would push [undefined]; [next] never passes such an index
    (lemma [findNext_range] below), and here that case leaves the array
    alone and returns [None]. *)
Definition moveToTheEnd (i : Z) : M (option loc) :=
  let* removed := keysSplice i 1 in
  match removed with
  | key :: _ => let* _ := keysPush key in ret (Some key)
  | [] => ret None
  end.

Definition next (kid : Value) : M (option loc) :=
  let* i := findNext kid in
  if (i =? -1)%Z then ret None
  else moveToTheEnd i.

(** The body of the [for ... of] loop of [toJSON]. *)
Definition toJSON_body (includePrivateFields : bool) (key : loc) : M Value :=
  if includePrivateFields then
    let* c := spread key in ret (VRef c)
  else
    let* alg := readProp key "alg" in
    let* _ := assertIsString alg MissingAlgField in
    match alg with
    | VStr a =>
        if negb (mapHas a) then throw (UnsupportedAlg alg)
        else
          match mapGet a with
          | Some cleaner => callMember cleaner key
          | None => throw TypeError   (* not reached: [a] is in the map *)
          end
    | _ => throw MissingAlgField      (* not reached: the assertion threw *)
    end.

(** The loop, with [out] the local array [keys] built so far. *)
Fixpoint toJSON_loop (includePrivateFields : bool) (rest : list loc)
    (out : list Value) : M (list Value) :=
  match rest with
  | [] => ret out
  | key :: rest' =>
      let* v := toJSON_body includePrivateFields key in
      toJSON_loop includePrivateFields rest' (out ++ [v])
  end.

Definition toJSON (includePrivateFields : bool) : M (list Value) :=
  λ st, toJSON_loop includePrivateFields (keys st) [] st.

End KeyRotator.

(** ** class JWKStore *)

Definition instanceofKeyObject (k : ParsedKey) : bool :=
  match k with
  | PKeyLike (KeyObject _ _) => true
  | _ => false
  end.

(** [k.type === 'private'] *)
Definition typeIsPrivate (k : ParsedKey) : bool :=
  match k with
  | PKeyLike (KeyObject private _) | PKeyLike (CryptoKey private _) => true
  | _ => false
  end.

Module JWKStore.
Section Collaborators.

(** The three functions of the jose library the store calls.  Key
    generation draws on the random source; a [inl msg] result is an
    exception. *)
Variable generateKeyPair :
  string → GenerateKeyPairOptions → Entropy → (string + KeyPair) * Entropy.
Variable fromKeyLike : KeyLike → string + Obj.
Variable parseJwk : Obj → string + ParsedKey.

Definition await_generateKeyPair (alg : string) (o : GenerateKeyPairOptions)
    : M KeyPair :=
  λ st, match generateKeyPair alg o (entropy st) with
        | (inr kp, e') => (Ok kp, mkState (heap st) (keys st) e')
        | (inl msg, e') => (Thrown (CollaboratorError msg), mkState (heap st) (keys st) e')
        end.

Definition await_fromKeyLike (k : KeyLike) : M loc :=
  match fromKeyLike k with
  | inr o => alloc o
  | inl msg => throw (CollaboratorError msg)
  end.

Definition await_parseJwk (jwk : loc) : M ParsedKey :=
  let* o := readObj jwk in
  match parseJwk o with
  | inr k => ret k
  | inl msg => throw (CollaboratorError msg)
  end.

Definition generate (alg : string) (opts : option Opts) : M loc :=
  let generateOpts :=
    match opts with
    | Some {| opt_crv := Some c |} => {| gen_crv := Some c |}
    | _ => {| gen_crv := None |}
    end in
  let* kp := await_generateKeyPair alg generateOpts in
  let* jwk := await_fromKeyLike (privateKey kp) in
  let* _ := writeProp jwk "alg" (VStr alg) in
  let* _ := normalizeKey jwk opts in
  let* _ := KeyRotator.add jwk in
  ret jwk.

(** [jwk] is the content of the caller's object, which [add] only reads,
    to copy it. *)
Definition add (jwk : Obj) : M loc :=
  let* jwkUse := alloc jwk in
  let* _ := normalizeKey jwkUse None in
  let* alg := readProp jwkUse "alg" in
  if strict_eq alg VUndef then throw UnspecifiedAlg
  else if negb (includes supportedAlgs alg) then throw (UnsupportedAlg alg)
  else
    let* parsed := await_parseJwk jwkUse in
    if negb (instanceofKeyObject parsed) || negb (typeIsPrivate parsed)
    then throw InvalidJwkType
    else
      let* _ := KeyRotator.add jwkUse in
      ret jwkUse.

Definition get (kid : option string) : M (option loc) :=
  KeyRotator.next (match kid with Some k => VStr k | None => VUndef end).

Definition toJSON (includePrivateFields : bool) : M (list Value) :=
  KeyRotator.toJSON includePrivateFields.

End Collaborators.
End JWKStore.

(** ** Notions used to state the properties *)

(** The [kid] of the record behind a reference. *)
Definition kidOf (h : Heap) (l : loc) : Value := getProp (deref h l) "kid".

(** [n] unpinned selections in a row: what they returned, in order. *)
Fixpoint selectMany (n : nat) : M (list (option loc)) :=
  match n with
  | O => ret []
  | S n' =>
      let* r := KeyRotator.next VUndef in
      let* rs := selectMany n' in
      ret (r :: rs)
  end.

(** The records [rs] added to the rotator one after the other. *)
Fixpoint addMany (rs : list loc) : M unit :=
  match rs with
  | [] => ret tt
  | r :: rs' => let* _ := KeyRotator.add r in addMany rs'
  end.

(** Kid-uniqueness: no two stored records share a [kid]. *)
Definition kidUnique (st : State) : Prop := NoDup (kidOf (heap st) <$> keys st).

(** A run of selections, pinned ([Some kid]) or not ([None]), whose answers
    are dropped. *)
Fixpoint getMany (kids : list (option string)) : M unit :=
  match kids with
  | [] => ret tt
  | k :: ks => let* _ := JWKStore.get k in getMany ks
  end.

(** Every reference in [#keys] points into the heap. *)
Definition wellFormed (st : State) : Prop :=
  Forall (λ l, l < length (heap st)) (keys st).

(** Every stored record carries an algorithm of [supportedAlgs]. *)
Definition allSupported (st : State) : Prop :=
  Forall (λ l, ∃ a, getProp (deref (heap st) l) "alg" = VStr a ∧ a ∈ supportedAlgs)
    (keys st).

(** ** The export, as a function of the records' contents *)

(** [o] without the properties [ks]. *)
Definition removeAll (ks : list string) (o : Obj) : Obj :=
  foldl (λ r k, delete k r) o ks.

(** What one turn of the export loop hands out for a record. *)
Inductive Exported : Type :=
| ExCopy (o : Obj)        (* a new object with this content *)
| ExSame                  (* the stored record itself *)
| ExString (s : string).  (* a string *)

(** The outcome of one turn, told from the content [o] of the record. *)
Definition exportOne (includePrivateFields : bool) (o : Obj) : Result Exported :=
  if includePrivateFields then Ok (ExCopy o)
  else
    match getProp o "alg" with
    | VStr a =>
        match mapGet a with
        | None => Thrown (UnsupportedAlg (VStr a))
        | Some (OwnMember t) => Ok (ExCopy (removeAll (removedFields t) o))
        | Some (InheritedMember proto_constructor) => Ok ExSame
        | Some (InheritedMember proto_toString) => Ok (ExString "[object Undefined]")
        | Some (InheritedMember _) => Thrown TypeError
        end
    | _ => Thrown MissingAlgField
    end.

(** The outcome of the whole loop: the first error, if any. *)
Fixpoint exportAll (includePrivateFields : bool) (os : list Obj)
    : Result (list Exported) :=
  match os with
  | [] => Ok []
  | o :: os' =>
      match exportOne includePrivateFields o with
      | Thrown e => Thrown e
      | Ok w =>
          match exportAll includePrivateFields os' with
          | Ok ws => Ok (w :: ws)
          | Thrown e => Thrown e
          end
      end
  end.

(** The value [v], in the heap [h], is what [w] announces for the record
    [l] of a heap [h0] that [h] extends. *)
Definition exported (h0 h : Heap) (l : loc) (v : Value) (w : Exported) : Prop :=
  match w with
  | ExCopy o => ∃ c, v = VRef c ∧ length h0 ≤ c < length h ∧ deref h c = o
  | ExSame => v = VRef l
  | ExString s => v = VStr s
  end.

(** What the caller sees of an exported value: the content of the object
    behind a reference, or the value itself. *)
Definition resolve (h : Heap) (v : Value) : Value + Obj :=
  match v with
  | VRef c => inr (deref h c)
  | _ => inl v
  end.

Definition observe (h : Heap) (r : Result (list Value)) : Result (list (Value + Obj)) :=
  match r with
  | Ok vs => Ok (resolve h <$> vs)
  | Thrown e => Thrown e
  end.

(** What the caller sees of the export of the record [l]. *)
Definition viewOf (includePrivateFields : bool) (h : Heap) (l : loc) : Value + Obj :=
  match exportOne includePrivateFields (deref h l) with
  | Ok (ExCopy o) => inr o
  | Ok ExSame => inr (deref h l)
  | Ok (ExString s) => inl (VStr s)
  | Thrown _ => inl VUndef
  end.

Definition observed (includePrivateFields : bool) (h : Heap) (ks : list loc)
    : Result (list (Value + Obj)) :=
  match exportAll includePrivateFields (deref h <$> ks) with
  | Ok _ => Ok (viewOf includePrivateFields h <$> ks)
  | Thrown e => Thrown e
  end.

(** A record that [toJSON] copies: any record when the private fields are
    included, and otherwise one with a supported algorithm. *)
Definition copied (includePrivateFields : bool) (h : Heap) (l : loc) : Prop :=
  includePrivateFields = true ∨
  ∃ a, getProp (deref h l) "alg" = VStr a ∧ a ∈ supportedAlgs.

(** ** The redaction table, as the specification words it *)

Inductive Family : Type := RSA | ECDSA | EdDSA.

Definition familyOf (alg : string) : option Family :=
  if bool_decide (alg ∈ ["RS256"; "RS384"; "RS512"; "PS256"; "PS384"; "PS512"])
  then Some RSA
  else if bool_decide (alg ∈ ["ES256"; "ES256K"; "ES384"; "ES512"])
  then Some ECDSA
  else if bool_decide (alg = "EdDSA") then Some EdDSA
  else None.

Definition privateFields (f : Family) : list string :=
  match f with
  | RSA => ["d"; "p"; "q"; "dp"; "dq"; "qi"]
  | ECDSA => ["d"]
  | EdDSA => ["d"]
  end.

(** Every stored record carries an algorithm that the specification's
    table puts in a family. *)
Definition allInFamilies (st : State) : Prop :=
  Forall (λ l, ∃ a f, getProp (deref (heap st) l) "alg" = VStr a ∧ familyOf a = Some f)
    (keys st).

(** ** The store's history *)

(** The calls a client can make on a store. *)
Inductive Call : Type :=
| CallGenerate (alg : string) (opts : option Opts)
| CallAdd (jwk : Obj)
| CallGet (kid : option string)
| CallToJSON (includePrivateFields : bool).

Section History.

Variable generateKeyPair :
  string → GenerateKeyPairOptions → Entropy → (string + KeyPair) * Entropy.
Variable fromKeyLike : KeyLike → string + Obj.
Variable parseJwk : Obj → string + ParsedKey.

(** The state a call leaves behind, whether it returns or throws. *)
Definition perform (c : Call) (st : State) : State :=
  match c with
  | CallGenerate alg opts =>
      (JWKStore.generate generateKeyPair fromKeyLike alg opts st).2
  | CallAdd jwk => (JWKStore.add parseJwk jwk st).2
  | CallGet kid => (JWKStore.get kid st).2
  | CallToJSON b => (JWKStore.toJSON b st).2
  end.

(** The states of a store: [new JWKStore()] followed by calls. *)
Inductive reachable : State → Prop :=
| reachable_new (e : Entropy) : reachable (mkState [] [] e)
| reachable_call (c : Call) (st : State) :
    reachable st → reachable (perform c st).

End History.

(** The invariant the store maintains on its records. *)
Definition kidsDefined (st : State) : Prop :=
  Forall (λ l, l < length (heap st) ∧ kidOf (heap st) l ≠ VUndef) (keys st).

(** The object [normalizeKey] turns a kid-less or kid-bearing object into,
    and the entropy left afterwards. *)
Definition normalized (o : Obj) (opts : option Opts) (e : Entropy) : Obj * Entropy :=
  if strict_eq (getProp o "kid") VUndef then
    match opts with
    | Some {| opt_kid := Some k |} => (<["kid" := VStr k]> o, e)
    | _ => (<["kid" := VStr (toHex (randomBytes 40 e).1)]> o, (randomBytes 40 e).2)
    end
  else (o, e).

(** [instanceof KeyObject] and [type === 'private'] together: a node
    private key. *)
Definition usablePrivateKey (k : ParsedKey) : Prop :=
  ∃ handle, k = PKeyLike (KeyObject private handle).

(** ** Sample states *)

Definition zeroEntropy : Entropy := λ _, x00.

(** A store holding one RSA record whose [alg] names a member that the
    transformer map inherits from [Object.prototype]. *)
Definition inheritedAlgStore : State :=
  mkState
    [ {[ "kid" := VStr "k1"; "kty" := VStr "RSA"; "alg" := VStr "constructor";
         "n" := VStr "modulus"; "e" := VStr "AQAB"; "d" := VStr "private-exponent" ]} ]
    [0]
    zeroEntropy.

(** A store holding an RSA record, an EC record and a record without [alg],
    in this order. *)
Definition mixedStore : State :=
  mkState
    [ {[ "kid" := VStr "a"; "kty" := VStr "RSA"; "alg" := VStr "RS256";
         "n" := VStr "modulus"; "e" := VStr "AQAB"; "d" := VStr "private-exponent";
         "p" := VStr "prime1"; "q" := VStr "prime2" ]};
      {[ "kid" := VStr "b"; "kty" := VStr "EC"; "alg" := VStr "ES256"; "crv" := VStr "P-256";
         "x" := VStr "x-coordinate"; "y" := VStr "y-coordinate"; "d" := VStr "private-scalar" ]};
      {[ "kid" := VStr "c"; "kty" := VStr "oct"; "k" := VStr "secret" ]} ]
    [0; 1; 2]
    zeroEntropy.

(** The same store without its third record. *)
Definition supportedStore : State :=
  mkState (heap mixedStore) [0; 1] zeroEntropy.

(** A store in which a new record (reference 2) has the kid of the first
    stored one. *)
Definition duplicateStore : State :=
  mkState
    [ {[ "kid" := VStr "a"; "alg" := VStr "RS256"; "n" := VStr "old-modulus" ]};
      {[ "kid" := VStr "b"; "alg" := VStr "ES256"; "x" := VStr "x-coordinate" ]};
      {[ "kid" := VStr "a"; "alg" := VStr "RS256"; "n" := VStr "new-modulus" ]} ]
    [0; 1]
    zeroEntropy.

(** ** Sample collaborators *)

(** A generator that accepts every algorithm, an exporter that always gives
    the same RSA material, and a parser that takes every input for a private
    key. *)
Definition sampleGenerateKeyPair
    : string → GenerateKeyPairOptions → Entropy → (string + KeyPair) * Entropy :=
  λ _ _ e, (inr {| privateKey := KeyObject private 1; publicKey := KeyObject public 1 |}, e).

Definition sampleFromKeyLike : KeyLike → string + Obj :=
  λ _, inr {[ "kty" := VStr "RSA"; "n" := VStr "modulus"; "e" := VStr "AQAB";
              "d" := VStr "private-exponent" ]}.

Definition sampleParseJwk : Obj → string + ParsedKey :=
  λ _, inr (PKeyLike (KeyObject private 2)).

Definition emptyStore : State := mkState [] [] zeroEntropy.

(** An RSA key whose kid is the empty string. *)
Definition emptyKidJwk : Obj :=
  {[ "kid" := VStr ""; "kty" := VStr "RSA"; "alg" := VStr "RS256";
     "n" := VStr "modulus"; "e" := VStr "AQAB"; "d" := VStr "private-exponent" ]}.
(** ** Further notions *)

(** A key generator that accepts supported algorithms only. *)
Definition conforming
    (generateKeyPair : string → GenerateKeyPairOptions → Entropy → (string + KeyPair) * Entropy)
    : Prop :=
  ∀ alg go e kp e', generateKeyPair alg go e = (inr kp, e') → alg ∈ supportedAlgs.

(** A generator of that kind: it refuses what [supportedAlgs] does not
    list. *)
Definition strictGenerateKeyPair
    : string → GenerateKeyPairOptions → Entropy → (string + KeyPair) * Entropy :=
  λ alg _ e,
    if bool_decide (alg ∈ supportedAlgs)
    then (inr {| privateKey := KeyObject private 1; publicKey := KeyObject public 1 |}, e)
    else (inl "unsupported algorithm", e).

(** The value of a hexadecimal digit, and the byte two digits spell. *)
Definition hexValue (c : ascii) : N :=
  match list_find (λ d, d = c) (String.list_ascii_of_string "0123456789abcdef") with
  | Some (i, _) => N.of_nat i
  | None => 0
  end.

Definition fromHexPair (hi lo : ascii) : option byte :=
  Byte.of_N (16 * hexValue hi + hexValue lo).

(** An EC key without a kid. *)
Definition kidlessJwk : Obj :=
  {[ "kty" := VStr "EC"; "alg" := VStr "ES256"; "crv" := VStr "P-256";
     "x" := VStr "x-coordinate"; "y" := VStr "y-coordinate"; "d" := VStr "private-scalar" ]}.

(** A symmetric key: its algorithm is not a supported one. *)
Definition symmetricJwk : Obj :=
  {[ "kid" := VStr "s"; "kty" := VStr "oct"; "alg" := VStr "HS256"; "k" := VStr "secret" ]}.

(** A parser that rejects every input. *)
Definition failingParseJwk : Obj → string + ParsedKey := λ _, inl "malformed key".

(** A generator that fails. *)
Definition failingGenerateKeyPair
    : string → GenerateKeyPairOptions → Entropy → (string + KeyPair) * Entropy :=
  λ _ _ e, (inl "no key", e).

(** A store whose head record (reference 0) has lost its kid, and a new
    record (reference 2) without one. *)
Definition kidlessStore : State :=
  mkState
    [ {[ "alg" := VStr "RS256"; "n" := VStr "modulus" ]};
      {[ "kid" := VStr "b"; "alg" := VStr "ES256"; "x" := VStr "x-coordinate" ]};
      {[ "alg" := VStr "ES256"; "x" := VStr "other" ]} ]
    [0; 1]
    zeroEntropy.

(** * Properties *)

(** ** Lists, the heap and the monad *)

Lemma alter_app_fresh (f : Obj → Obj) (h : Heap) (c : Obj) :
  alter f (length h) (h ++ [c]) = h ++ [f c].
Proof. rewrite alter_app_r_alt; [|lia]. by rewrite Nat.sub_diag. Qed.

Lemma deref_app_l (h hs : Heap) (l : loc) :
  l < length h → deref (h ++ hs) l = deref h l.
Proof. intros Hl. unfold deref. by rewrite lookup_app_l. Qed.

Lemma deref_app_fresh (h : Heap) (c : Obj) : deref (h ++ [c]) (length h) = c.
Proof.
  unfold deref. rewrite lookup_app_r; [|lia]. by rewrite Nat.sub_diag.
Qed.

Lemma findIndexFrom_shift {A} (p : A → bool) (l : list A) (i : Z) :
  findIndexFrom p l i = (-1)%Z ∨
  (0 ≤ findIndexFrom p l i - i < Z.of_nat (length l))%Z.
Proof.
  revert i. induction l as [|x l IH]; intros i; simpl; [by left|].
  destruct (p x); [right; lia|].
  destruct (IH (i + 1)%Z) as [->|?]; [by left | right; lia].
Qed.

(** What [findIndex] returns: [-1] when nothing matches, and otherwise the
    position of the first match. *)
Lemma findIndexFrom_spec {A} (p : A → bool) (l : list A) (i : Z) :
  (findIndexFrom p l i = (-1)%Z ∧ Forall (λ x, p x = false) l) ∨
  (∃ pre x post, l = pre ++ x :: post ∧ Forall (λ y, p y = false) pre ∧
     p x = true ∧ findIndexFrom p l i = (i + Z.of_nat (length pre))%Z).
Proof.
  revert i. induction l as [|x l IH]; intros i; simpl.
  - left. by split.
  - destruct (p x) eqn:Hp.
    + right. exists [], x, l. simpl. split_and!; [done | constructor | done | lia].
    + destruct (IH (i + 1)%Z) as [[-> Hall]|(pre & y & post & -> & Hpre & Hy & ->)].
      * left. split; [done | by constructor].
      * right. exists (x :: pre), y, post. simpl.
        split_and!; [done | by constructor | done | lia].
Qed.

Lemma findIndex_spec {A} (p : A → bool) (l : list A) :
  (findIndex p l = (-1)%Z ∧ Forall (λ x, p x = false) l) ∨
  (∃ pre x post, l = pre ++ x :: post ∧ Forall (λ y, p y = false) pre ∧
     p x = true ∧ findIndex p l = Z.of_nat (length pre)).
Proof.
  unfold findIndex. destruct (findIndexFrom_spec p l 0) as [?|(pre & x & post & ? & ? & ? & ?)];
    [by left | right]. exists pre, x, post. by split_and!.
Qed.

Lemma splice_one_at {A} (pre post : list A) (x : A) :
  splice (Z.of_nat (length pre)) 1 (pre ++ x :: post) = ([x], pre ++ post).
Proof.
  unfold splice. rewrite length_app. simpl.
  assert (Hs : (Z.of_nat (length pre) <? 0)%Z = false) by (apply Z.ltb_ge; lia).
  rewrite Hs.
  replace (Z.min (Z.of_nat (length pre)) (Z.of_nat (length pre + S (length post))))
    with (Z.of_nat (length pre)) by lia.
  replace (Z.min (Z.max 1 0) (Z.of_nat (length pre + S (length post)) - Z.of_nat (length pre)))
    with 1%Z by lia.
  rewrite Nat2Z.id. change (Z.to_nat 1) with 1.
  rewrite drop_app_length, take_app_length. simpl. rewrite take_0.
  replace (length pre + 1) with (length (pre ++ [x])) by (rewrite length_app; simpl; lia).
  replace (pre ++ x :: post) with ((pre ++ [x]) ++ post) by (by rewrite <- app_assoc).
  by rewrite drop_app_length.
Qed.

Lemma splice_head {A} (x : A) (l : list A) : splice 0 1 (x :: l) = ([x], l).
Proof. apply (splice_one_at [] l x). Qed.

(** ** The rotator's selection *)

(** [findNext] answers [-1] or a valid index of [#keys]. *)
Lemma findNext_range (kid : Value) (st : State) :
  ∃ i, KeyRotator.findNext kid st = (Ok i, st) ∧
       (i = (-1)%Z ∨ (0 ≤ i < Z.of_nat (length (keys st)))%Z).
Proof.
  unfold KeyRotator.findNext. case_bool_decide as Hlen.
  - eexists. split; [done | by left].
  - destruct (strict_eq kid VUndef).
    + eexists. split; [done | right; lia].
    + eexists. split; [done|]. unfold findIndex.
      destruct (findIndexFrom_shift
                  (λ x, strict_eq (getProp (deref (heap st) x) "kid") kid) (keys st) 0);
        [by left | right; lia].
Qed.

Lemma findNext_unpinned (h : Heap) (x : loc) (xs : list loc) (e : Entropy) :
  KeyRotator.findNext VUndef (mkState h (x :: xs) e) = (Ok 0%Z, mkState h (x :: xs) e).
Proof. done. Qed.

Lemma findNext_pinned (kid : Value) (st : State) :
  kid ≠ VUndef →
  KeyRotator.findNext kid st
  = (Ok (findIndex (λ x, strict_eq (kidOf (heap st) x) kid) (keys st)), st).
Proof.
  intros Hk. unfold KeyRotator.findNext, strict_eq at 1.
  rewrite (bool_decide_false _ Hk).
  case_bool_decide as Hlen; [|done].
  destruct (keys st); [done | discriminate].
Qed.

Lemma moveToTheEnd_at (h : Heap) (pre post : list loc) (x : loc) (e : Entropy) :
  KeyRotator.moveToTheEnd (Z.of_nat (length pre)) (mkState h (pre ++ x :: post) e)
  = (Ok (Some x), mkState h (pre ++ post ++ [x]) e).
Proof.
  unfold KeyRotator.moveToTheEnd, KeyRotator.keysSplice, bind. cbn [keys heap entropy].
  rewrite splice_one_at. cbn. by rewrite <- app_assoc.
Qed.

Lemma next_unpinned_cons (h : Heap) (x : loc) (xs : list loc) (e : Entropy) :
  KeyRotator.next VUndef (mkState h (x :: xs) e) = (Ok (Some x), mkState h (xs ++ [x]) e).
Proof.
  unfold KeyRotator.next, bind. rewrite findNext_unpinned.
  change (0 =? -1)%Z with false. cbv iota.
  apply (moveToTheEnd_at h [] xs x e).
Qed.

Lemma next_empty (kid : Value) (h : Heap) (e : Entropy) :
  KeyRotator.next kid (mkState h [] e) = (Ok None, mkState h [] e).
Proof. done. Qed.

Lemma selectMany_rotate (h : Heap) (e : Entropy) (l1 l2 : list loc) :
  selectMany (length l1) (mkState h (l1 ++ l2) e)
  = (Ok (Some <$> l1), mkState h (l2 ++ l1) e).
Proof.
  revert l2. induction l1 as [|x l1 IH]; intros l2; simpl.
  - by rewrite app_nil_r.
  - unfold bind at 1. rewrite next_unpinned_cons.
    unfold bind at 1. rewrite <- app_assoc, IH. unfold ret.
    by rewrite <- app_assoc.
Qed.

Lemma selectMany_app (n m : nat) (st : State) :
  selectMany (n + m) st =
  (let* a := selectMany n in let* b := selectMany m in ret (a ++ b)) st.
Proof.
  revert st. induction n as [|n IH]; intros st; simpl.
  - unfold bind, ret. by destruct (selectMany m st) as [[?|?] ?].
  - unfold bind in *. destruct (KeyRotator.next VUndef st) as [[r|err] st1]; [|done].
    rewrite IH. unfold ret.
    destruct (selectMany n st1) as [[a|?] st2]; [|done].
    by destruct (selectMany m st2) as [[b|?] st3].
Qed.

(** C1 — round-robin selection.  A rotator holding the records [r1..rN], in
    this order, answers N unpinned selections in a row with [r1], ...,
    [rN], each once and in this order, and is then back in the state it
    started from; so any number [k] of such rounds returns the same
    sequence [k] times over. *)
Theorem round_robin_cycle (st : State) (k : nat) :
  selectMany (length (keys st)) st = (Ok (Some <$> keys st), st) ∧
  selectMany (k * length (keys st)) st
  = (Ok (mjoin (replicate k (Some <$> keys st))), st).
Proof.
  assert (Hone : ∀ s, selectMany (length (keys s)) s = (Ok (Some <$> keys s), s)).
  { intros [h ks e]. simpl.
    pose proof (selectMany_rotate h e ks []) as H.
    by rewrite app_nil_r in H. }
  split; [apply Hone|].
  induction k as [|k IH]; simpl; [done|].
  rewrite selectMany_app. unfold bind at 1. rewrite Hone.
  unfold bind. rewrite IH. done.
Qed.

(** ** Adding to the rotator *)

Lemma NoDup_fmap_eq {A B} (f : A → B) (l : list A) (x y : A) :
  NoDup (f <$> l) → x ∈ l → y ∈ l → f x = f y → x = y.
Proof.
  induction l as [|a l IH]; intros Hnd Hx Hy Hf; [by apply elem_of_nil in Hx|].
  rewrite fmap_cons in Hnd. apply NoDup_cons in Hnd as [Hnotin Hnd].
  apply elem_of_cons in Hx as [->|Hx]; apply elem_of_cons in Hy as [->|Hy].
  - done.
  - exfalso. apply Hnotin. rewrite Hf. by apply list_elem_of_fmap_2.
  - exfalso. apply Hnotin. rewrite <- Hf. by apply list_elem_of_fmap_2.
  - by apply IH.
Qed.

Lemma strict_eq_true (a b : Value) : strict_eq a b = true ↔ a = b.
Proof. unfold strict_eq. apply bool_decide_eq_true. Qed.

Lemma strict_eq_false (a b : Value) : strict_eq a b = false ↔ a ≠ b.
Proof. unfold strict_eq. apply bool_decide_eq_false. Qed.

Lemma rotator_add_found (h : Heap) (pre post : list loc) (x key : loc) (e : Entropy) :
  kidOf h key ≠ VUndef →
  kidOf h x = kidOf h key →
  Forall (λ l, kidOf h l ≠ kidOf h key) pre →
  KeyRotator.add key (mkState h (pre ++ x :: post) e)
  = (Ok tt, mkState h (pre ++ post ++ [key]) e).
Proof.
  intros Hdef Hx Hpre.
  unfold KeyRotator.add, bind, readProp. cbn [heap].
  fold (kidOf h key). rewrite findNext_pinned by done. cbn [heap keys].
  destruct (findIndex_spec (λ z, strict_eq (kidOf h z) (kidOf h key)) (pre ++ x :: post))
    as [[_ Hall]|(pre' & y & post' & Heq & Hpre' & Hy & ->)].
  - exfalso. rewrite Forall_app, Forall_cons in Hall.
    destruct Hall as (_ & Hfx & _). by apply strict_eq_false in Hfx.
  - assert (pre' = pre ∧ y = x ∧ post' = post) as (-> & -> & ->).
    { revert pre' Heq Hpre'. induction pre as [|a pre IH]; intros pre' Heq Hpre'.
      - destruct pre' as [|b pre']; simpl in Heq.
        + by inversion Heq.
        + inversion Heq; subst. apply Forall_cons in Hpre' as [Hb _].
          by apply strict_eq_false in Hb.
      - apply Forall_cons in Hpre as [Ha Hpre].
        destruct pre' as [|b pre']; simpl in Heq; inversion Heq; subst.
        + by apply strict_eq_true in Hy.
        + apply Forall_cons in Hpre' as [_ Hpre'].
          destruct (IH Hpre pre' H1 Hpre') as (-> & -> & ->). done. }
    assert (Hgt : (Z.of_nat (length pre) >? -1)%Z = true) by (apply Z.gtb_lt; lia).
    rewrite Hgt. unfold KeyRotator.keysSplice. cbn [keys heap entropy].
    rewrite splice_one_at. unfold KeyRotator.keysPush, ret. cbn [keys heap entropy].
    by rewrite <- app_assoc.
Qed.

Lemma rotator_add_fresh (h : Heap) (ks : list loc) (key : loc) (e : Entropy) :
  kidOf h key ≠ VUndef →
  Forall (λ l, kidOf h l ≠ kidOf h key) ks →
  KeyRotator.add key (mkState h ks e) = (Ok tt, mkState h (ks ++ [key]) e).
Proof.
  intros Hdef Hks.
  unfold KeyRotator.add, bind, readProp. cbn [heap].
  fold (kidOf h key). rewrite findNext_pinned by done. cbn [heap keys].
  destruct (findIndex_spec (λ z, strict_eq (kidOf h z) (kidOf h key)) ks)
    as [[-> _]|(pre' & y & post' & -> & _ & Hy & _)].
  - done.
  - exfalso. rewrite Forall_app, Forall_cons in Hks.
    destruct Hks as (_ & Hfy & _). by apply strict_eq_true in Hy.
Qed.

(** Records with pairwise different kids, added in order, are stored in
    that order. *)
Lemma addMany_in_order (h : Heap) (e : Entropy) (rs ks : list loc) :
  NoDup (kidOf h <$> (ks ++ rs)) →
  Forall (λ r, kidOf h r ≠ VUndef) rs →
  addMany rs (mkState h ks e) = (Ok tt, mkState h (ks ++ rs) e).
Proof.
  revert ks. induction rs as [|r rs IH]; intros ks Hnd Hdef; simpl.
  - by rewrite app_nil_r.
  - apply Forall_cons in Hdef as [Hr Hdef]. unfold bind.
    rewrite rotator_add_fresh; [|done|].
    + rewrite IH; [by rewrite <- app_assoc | by rewrite <- app_assoc | done].
    + rewrite fmap_app, fmap_cons in Hnd. apply NoDup_app in Hnd as (_ & Hdisj & _).
      apply Forall_forall. intros l Hl Heq. apply (Hdisj (kidOf h l)).
      * by apply list_elem_of_fmap_2.
      * rewrite Heq. apply elem_of_cons. by left.
Qed.

(** The round-robin cycle of a rotator filled by such additions. *)
Lemma round_robin_after_adds (h : Heap) (e : Entropy) (rs : list loc) :
  NoDup (kidOf h <$> rs) →
  Forall (λ r, kidOf h r ≠ VUndef) rs →
  (let* _ := addMany rs in selectMany (length rs)) (mkState h [] e)
  = (Ok (Some <$> rs), mkState h rs e).
Proof.
  intros Hnd Hdef. unfold bind. rewrite addMany_in_order by done.
  rewrite app_nil_l. pose proof (selectMany_rotate h e rs []) as H.
  by rewrite !app_nil_r in H.
Qed.

(** C2 — replace-on-duplicate.  In a rotator where no two records share a
    kid, adding a record [key] whose kid is that of a stored record [old]
    takes [old] out and puts [key] at the tail: the array goes from
    [pre ++ old :: post] to [pre ++ post ++ [key]], so the other records keep
    their relative order, none of them has that kid, the tail is the new
    record (the heap, hence its content, is untouched), and kids are still
    unique. *)
Theorem add_replaces_duplicate (st : State) (key old : loc) :
  kidUnique st →
  kidOf (heap st) key ≠ VUndef →
  old ∈ keys st →
  kidOf (heap st) old = kidOf (heap st) key →
  ∃ pre post,
    keys st = pre ++ old :: post ∧
    KeyRotator.add key st
    = (Ok tt, mkState (heap st) (pre ++ post ++ [key]) (entropy st)) ∧
    Forall (λ l, kidOf (heap st) l ≠ kidOf (heap st) key) (pre ++ post) ∧
    last (pre ++ post ++ [key]) = Some key ∧
    kidUnique (mkState (heap st) (pre ++ post ++ [key]) (entropy st)).
Proof.
  destruct st as [h ks e]. unfold kidUnique. cbn [heap keys entropy].
  intros Hnd Hdef Hin Hkid.
  apply list_elem_of_split in Hin as (pre & post & ->).
  exists pre, post.
  rewrite fmap_app, fmap_cons in Hnd.
  apply NoDup_app in Hnd as (Hpre & Hdisj & Hrest).
  apply NoDup_cons in Hrest as [Hold Hpost].
  assert (Hpre_ne : Forall (λ l, kidOf h l ≠ kidOf h key) pre).
  { apply Forall_forall. intros l Hl Heq.
    apply (Hdisj (kidOf h l)); [by apply list_elem_of_fmap_2|].
    rewrite Heq, <- Hkid. apply elem_of_cons. by left. }
  assert (Hpost_ne : Forall (λ l, kidOf h l ≠ kidOf h key) post).
  { apply Forall_forall. intros l Hl Heq.
    apply Hold. rewrite Hkid, <- Heq. by apply list_elem_of_fmap_2. }
  split_and!.
  - done.
  - by apply rotator_add_found.
  - by apply Forall_app.
  - by rewrite app_assoc, last_snoc.
  - rewrite app_assoc, fmap_app. simpl.
    apply NoDup_app. split_and!.
    + rewrite fmap_app. apply NoDup_app. split_and!; [done | | done].
      intros v Hv1 Hv2. apply (Hdisj v Hv1). apply elem_of_cons. by right.
    + intros v Hv Hv'. apply list_elem_of_singleton in Hv'. subst v.
      apply list_elem_of_fmap in Hv as (l & Hl1 & Hl2).
      assert (Hne : Forall (λ l, kidOf h l ≠ kidOf h key) (pre ++ post))
        by (by apply Forall_app).
      rewrite Forall_forall in Hne. by apply (Hne l Hl2).
    + apply NoDup_singleton.
Qed.

(** ** Pinned selection *)

Lemma next_pinned_spec (kid : Value) (st : State) :
  kid ≠ VUndef →
  (Forall (λ l, kidOf (heap st) l ≠ kid) (keys st) ∧
   KeyRotator.next kid st = (Ok None, st)) ∨
  (∃ pre x post,
     keys st = pre ++ x :: post ∧ kidOf (heap st) x = kid ∧
     Forall (λ l, kidOf (heap st) l ≠ kid) pre ∧
     KeyRotator.next kid st
     = (Ok (Some x), mkState (heap st) (pre ++ post ++ [x]) (entropy st))).
Proof.
  intros Hk. destruct st as [h ks e]. cbn [heap keys entropy].
  unfold KeyRotator.next, bind. rewrite findNext_pinned by done. cbn [heap keys].
  destruct (findIndex_spec (λ z, strict_eq (kidOf h z) kid) ks)
    as [[-> Hall]|(pre & x & post & -> & Hpre & Hx & ->)].
  - left. split; [|done].
    eapply Forall_impl; [exact Hall|]. intros l Hl. by apply strict_eq_false.
  - right. exists pre, x, post. split_and!.
    + done.
    + by apply strict_eq_true.
    + eapply Forall_impl; [exact Hpre|]. intros l Hl. by apply strict_eq_false.
    + assert (Hne : (Z.of_nat (length pre) =? -1)%Z = false) by (apply Z.eqb_neq; lia).
      rewrite Hne. apply moveToTheEnd_at.
Qed.

(** A selection only reorders [#keys]. *)
Lemma next_permutes (kid : Value) (st : State) :
  ∃ r ks', KeyRotator.next kid st = (Ok r, mkState (heap st) ks' (entropy st)) ∧
           ks' ≡ₚ keys st.
Proof.
  destruct (decide (kid = VUndef)) as [->|Hk].
  - destruct st as [h [|x xs] e].
    + by exists None, [].
    + exists (Some x), (xs ++ [x]). rewrite next_unpinned_cons. split; [done|].
      cbn [keys]. by rewrite Permutation_app_comm.
  - destruct (next_pinned_spec kid st Hk) as [[_ ->]|(pre & x & post & Hks & _ & _ & ->)].
    + exists None, (keys st). by destruct st.
    + exists (Some x), (pre ++ post ++ [x]). split; [done|].
      rewrite Hks. apply Permutation_app_head.
      by rewrite Permutation_app_comm.
Qed.

Lemma getMany_permutes (kids : list (option string)) (st : State) :
  ∃ ks', getMany kids st = (Ok tt, mkState (heap st) ks' (entropy st)) ∧
         ks' ≡ₚ keys st.
Proof.
  revert st. induction kids as [|k kids IH]; intros st; simpl.
  - exists (keys st). by destruct st.
  - unfold bind, JWKStore.get.
    destruct (next_permutes (match k with Some k0 => VStr k0 | None => VUndef end) st)
      as (r & ks1 & -> & Hp1).
    destruct (IH (mkState (heap st) ks1 (entropy st))) as (ks2 & -> & Hp2).
    exists ks2. split; [done|]. cbn [keys] in Hp2. by rewrite Hp2.
Qed.

(** What a pinned selection answers, whatever the order of [#keys]. *)
Lemma get_pinned_result (kid : string) (st : State) :
  ∃ r st', JWKStore.get (Some kid) st = (Ok r, st') ∧
    match r with
    | Some l => l ∈ keys st ∧ kidOf (heap st) l = VStr kid
    | None => ∀ l, l ∈ keys st → kidOf (heap st) l ≠ VStr kid
    end.
Proof.
  unfold JWKStore.get.
  destruct (next_pinned_spec (VStr kid) st) as [[Hall ->]|(pre & x & post & Hks & Hx & _ & ->)];
    [done | |].
  - exists None, st. split; [done|]. by apply Forall_forall.
  - eexists (Some x), _. split; [done|]. split; [|done].
    rewrite Hks. apply elem_of_app. right. apply elem_of_cons. by left.
Qed.

(** C8 — pinned lookup.  With unique kids, [get(kid)] returns the one stored
    record that has this kid, or nothing when no stored record has it; and
    the answer is the same after any run of further selections, unpinned or
    pinned, including [get(kid)] itself. *)
Theorem pinned_lookup (st : State) (kid : string) (between : list (option string)) :
  kidUnique st →
  ∃ r,
    (JWKStore.get (Some kid) st).1 = Ok r ∧
    ((let* _ := getMany between in JWKStore.get (Some kid)) st).1 = Ok r ∧
    match r with
    | Some l =>
        l ∈ keys st ∧ kidOf (heap st) l = VStr kid ∧
        ∀ l', l' ∈ keys st → kidOf (heap st) l' = VStr kid → l' = l
    | None => ∀ l, l ∈ keys st → kidOf (heap st) l ≠ VStr kid
    end.
Proof.
  unfold kidUnique. intros Hnd.
  destruct (get_pinned_result kid st) as (r & st1 & Hget & Hr).
  exists r. rewrite Hget. split; [done|].
  unfold bind.
  destruct (getMany_permutes between st) as (ks' & -> & Hperm).
  destruct (get_pinned_result kid (mkState (heap st) ks' (entropy st)))
    as (r' & st2 & -> & Hr').
  cbn [heap keys] in Hr'. cbn [fst].
  assert (Hsame : r' = r).
  { destruct r as [l|], r' as [l'|]; [| | |done].
    - destruct Hr as [Hl Hk], Hr' as [Hl' Hk']. f_equal.
      rewrite Hperm in Hl'.
      apply (NoDup_fmap_eq (kidOf (heap st)) (keys st)); [done..|congruence].
    - destruct Hr as [Hl Hk]. exfalso. apply (Hr' l); [by rewrite Hperm | done].
    - destruct Hr' as [Hl' Hk']. exfalso. rewrite Hperm in Hl'. by apply (Hr l'). }
  subst r'. split; [done|].
  destruct r as [l|]; [|done].
  destruct Hr as [Hl Hk]. split_and!; [done..|].
  intros l' Hl' Hk'.
  apply (NoDup_fmap_eq (kidOf (heap st)) (keys st)); [done..|congruence].
Qed.

(** ** Export *)

Lemma removeKey_eq (k : string) (o : loc) (h : Heap) (ks : list loc) (e : Entropy) :
  removeKey k o (mkState h ks e)
  = (Ok (length h), mkState (h ++ [delete k (deref h o)]) ks e).
Proof.
  unfold removeKey, spread, bind, readObj, alloc, deleteProp, ret.
  cbn [heap keys entropy]. by rewrite alter_app_fresh.
Qed.

(** [removeKeys] allocates one copy per key and returns the last one. *)
Lemma removeKeys_eq (fs : list string) (o : loc) (h : Heap) (ks : list loc) (e : Entropy) :
  ∃ hs c,
    removeKeys fs o (mkState h ks e) = (Ok c, mkState (h ++ hs) ks e) ∧
    length hs = length fs ∧
    deref (h ++ hs) c = removeAll fs (deref h o) ∧
    c = match fs with [] => o | _ => length h + length fs - 1 end.
Proof.
  unfold removeKeys. revert o h. induction fs as [|f fs IH]; intros o h; simpl.
  - exists [], o. rewrite app_nil_r. by split_and!.
  - unfold bind. rewrite removeKey_eq.
    destruct (IH (length h) (h ++ [delete f (deref h o)])) as (hs & c & -> & Hlen & Hc & Hrange).
    exists (delete f (deref h o) :: hs), c.
    replace (h ++ delete f (deref h o) :: hs) with ((h ++ [delete f (deref h o)]) ++ hs)
      by (by rewrite <- app_assoc).
    split_and!.
    + done.
    + simpl. by rewrite Hlen.
    + rewrite Hc. by rewrite deref_app_fresh.
    + rewrite Hrange. destruct fs; [simpl; lia|]. rewrite length_app. simpl. lia.
Qed.

Lemma removeAll_lookup (fs : list string) (o : Obj) (k : string) :
  removeAll fs o !! k = if bool_decide (k ∈ fs) then None else o !! k.
Proof.
  unfold removeAll. revert o. induction fs as [|f fs IH]; intros o; simpl; [done|].
  rewrite IH. case_bool_decide as H1; case_bool_decide as H2; try done.
  - exfalso. apply H2. apply elem_of_cons. by right.
  - apply elem_of_cons in H2 as [->|H2]; [|done]. apply lookup_delete_eq.
  - rewrite lookup_delete_ne; [done|]. intros ->. apply H2. apply elem_of_cons. by left.
Qed.

Lemma exported_grow (h0 h hs : Heap) (l : loc) (v : Value) (w : Exported) :
  exported h0 h l v w → exported h0 (h ++ hs) l v w.
Proof.
  destruct w as [o| |s]; simpl; try done.
  intros (c & -> & [Hlo Hhi] & Hc). exists c. split_and!; [done | done | |].
  - rewrite length_app. lia.
  - by rewrite deref_app_l.
Qed.

Lemma exported_base (h0 hs h : Heap) (l : loc) (v : Value) (w : Exported) :
  exported (h0 ++ hs) h l v w → exported h0 h l v w.
Proof.
  destruct w as [o| |s]; simpl; try done.
  intros (c & -> & [Hlo Hhi] & Hc). exists c. split_and!; [done | | done..].
  rewrite length_app in Hlo. lia.
Qed.

(** One turn of the loop only allocates, and its outcome is the one
    [exportOne] tells. *)
Lemma toJSON_body_spec (b : bool) (l : loc) (h : Heap) (ks : list loc) (e : Entropy) :
  ∃ r hs,
    KeyRotator.toJSON_body b l (mkState h ks e) = (r, mkState (h ++ hs) ks e) ∧
    match r, exportOne b (deref h l) with
    | Ok v, Ok w => exported h (h ++ hs) l v w
    | Thrown e1, Thrown e2 => e1 = e2
    | _, _ => False
    end.
Proof.
  unfold KeyRotator.toJSON_body, exportOne. destruct b.
  - exists (Ok (VRef (length h))), [deref h l].
    split; [done|]. simpl. exists (length h). rewrite deref_app_fresh, length_app.
    simpl. split_and!; [done | lia | lia | done].
  - unfold bind at 1. unfold readProp. cbn [heap].
    destruct (getProp (deref h l) "alg") as [| |b0|z|a|c] eqn:Halg;
      try (exists (Thrown MissingAlgField), []; rewrite app_nil_r; by split).
    unfold bind, assertIsString, ret, mapHas.
    destruct (mapGet a) as [[t|m]|] eqn:Hm.
    + rewrite bool_decide_true by eauto. cbn [negb callMember].
      unfold bind, applyTransformer.
      destruct (removeKeys_eq (removedFields t) l h ks e) as (hs & c & -> & Hlen & Hc & Hrange).
      exists (Ok (VRef c)), hs. split; [done|]. simpl. exists c.
      split_and!; [done | | | done]; rewrite ?length_app, ?Hlen;
        destruct t; simpl in *; lia.
    + rewrite bool_decide_true by eauto. cbn [negb callMember].
      destruct m;
        try (exists (Thrown TypeError), []; rewrite app_nil_r; by split).
      * exists (Ok (VRef l)), []. rewrite app_nil_r. by split.
      * exists (Ok (VStr "[object Undefined]")), []. rewrite app_nil_r. by split.
    + rewrite bool_decide_false by (by intros [? ?]). cbn [negb].
      exists (Thrown (UnsupportedAlg (VStr a))), []. rewrite app_nil_r. by split.
Qed.

Lemma toJSON_loop_spec (b : bool) (ks : list loc) (e : Entropy)
    (rest : list loc) (out : list Value) (h : Heap) :
  Forall (λ l, l < length h) rest →
  ∃ r hs,
    KeyRotator.toJSON_loop b rest out (mkState h ks e) = (r, mkState (h ++ hs) ks e) ∧
    match r with
    | Ok vs =>
        ∃ vs', vs = out ++ vs' ∧
          Forall2 (λ l v, ∃ w, exportOne b (deref h l) = Ok w ∧
                               exported h (h ++ hs) l v w) rest vs'
    | Thrown err => exportAll b (deref h <$> rest) = Thrown err
    end.
Proof.
  revert out h. induction rest as [|key rest IH]; intros out h Hrest.
  - exists (Ok out), []. rewrite app_nil_r. split; [done|].
    exists []. rewrite app_nil_r. split; [done | constructor].
  - apply Forall_cons in Hrest as [Hkey Hrest]. rewrite fmap_cons.
    cbn [KeyRotator.toJSON_loop exportAll]. unfold bind.
    destruct (toJSON_body_spec b key h ks e) as (r1 & hs1 & -> & Hagree).
    destruct r1 as [v|e1], (exportOne b (deref h key)) as [w|e2] eqn:Hone; try done.
    + destruct (IH (out ++ [v]) (h ++ hs1)) as (r & hs2 & -> & Hr).
      { eapply Forall_impl; [exact Hrest|]. intros l Hlt. rewrite length_app. simpl in *. lia. }
      exists r, (hs1 ++ hs2). rewrite app_assoc. split; [done|].
      assert (Hsame : deref (h ++ hs1) <$> rest = deref h <$> rest).
      { apply Forall_fmap_ext. eapply Forall_impl; [exact Hrest|].
        intros l Hlt. by apply deref_app_l. }
      destruct r as [vs|err].
      * destruct Hr as (vs' & -> & Hrel). exists (v :: vs'). split.
        { by rewrite <- app_assoc. }
        constructor.
        { exists w. split; [done|]. by apply exported_grow. }
        apply Forall2_same_length_lookup. split; [by eapply Forall2_length|].
        intros i l v' Hl Hv'.
        destruct (Forall2_lookup_lr _ _ _ _ _ _ Hrel Hl Hv') as (w' & Hw' & Hex).
        exists w'. split.
        { rewrite <- Hw'. f_equal. symmetry. apply deref_app_l.
          rewrite Forall_forall in Hrest. apply Hrest. by eapply list_elem_of_lookup_2. }
        by apply exported_base in Hex.
      * by rewrite <- Hsame, Hr.
    + exists (Thrown e1), hs1. split; [done|]. by subst.
Qed.

(** [toJSON] only allocates; when it returns, each value is the one
    [exportOne] tells for the record in its place, and when it throws, the
    error is the first that [exportAll] meets. *)
Lemma toJSON_exported (b : bool) (st : State) :
  wellFormed st →
  ∃ r hs,
    KeyRotator.toJSON b st = (r, mkState (heap st ++ hs) (keys st) (entropy st)) ∧
    match r with
    | Ok vs =>
        Forall2 (λ l v, ∃ w, exportOne b (deref (heap st) l) = Ok w ∧
                             exported (heap st) (heap st ++ hs) l v w) (keys st) vs
    | Thrown err => exportAll b (deref (heap st) <$> keys st) = Thrown err
    end.
Proof.
  intros Hwf. destruct st as [h ks e]. unfold wellFormed in Hwf. cbn [heap keys entropy] in *.
  unfold KeyRotator.toJSON. cbn [keys].
  destruct (toJSON_loop_spec b ks e ks [] h Hwf) as (r & hs & -> & Hr).
  exists r, hs. split; [done|].
  destruct r as [vs|err]; [|done].
  by destruct Hr as (vs' & -> & Hrel).
Qed.

Lemma exportAll_Ok (b : bool) (os : list Obj) :
  Forall (λ o, ∃ w, exportOne b o = Ok w) os → ∃ ws, exportAll b os = Ok ws.
Proof.
  induction os as [|o os IH]; intros Hall; [by exists []|].
  apply Forall_cons in Hall as [(w & Hw) Hall]. destruct (IH Hall) as (ws & Hws).
  exists (w :: ws). simpl. by rewrite Hw, Hws.
Qed.

Lemma exportAll_Thrown (b : bool) (os : list Obj) (err : Error) :
  exportAll b os = Thrown err → ∃ o, o ∈ os ∧ exportOne b o = Thrown err.
Proof.
  induction os as [|o os IH]; simpl; [done|].
  destruct (exportOne b o) as [w|e1] eqn:Hone.
  - destruct (exportAll b os) as [ws|e2]; [done|]. intros [= ->].
    destruct IH as (o' & Ho' & Hthrown); [done|].
    exists o'. split; [|done]. apply elem_of_cons. by right.
  - intros [= ->]. exists o. split; [|done]. apply elem_of_cons. by left.
Qed.

Lemma exported_resolve (b : bool) (h h' : Heap) (l : loc) (v : Value) (w : Exported) :
  l < length h →
  (∀ c, c < length h → deref h' c = deref h c) →
  exportOne b (deref h l) = Ok w →
  exported h h' l v w →
  resolve h' v = viewOf b h l.
Proof.
  intros Hl Hext Hone Hex. unfold viewOf. rewrite Hone.
  destruct w as [o| |s]; simpl in Hex.
  - destruct Hex as (c & -> & _ & <-). done.
  - subst v. simpl. by rewrite Hext.
  - by subst v.
Qed.

(** What the caller sees of [toJSON]'s outcome depends on the contents of
    the stored records only. *)
Lemma toJSON_observe (b : bool) (st : State) :
  wellFormed st →
  ∃ r hs,
    KeyRotator.toJSON b st = (r, mkState (heap st ++ hs) (keys st) (entropy st)) ∧
    observe (heap st ++ hs) r = observed b (heap st) (keys st).
Proof.
  intros Hwf. destruct (toJSON_exported b st Hwf) as (r & hs & Hrun & Hr).
  exists r, hs. split; [done|]. unfold observed.
  destruct r as [vs|err]; [|by rewrite Hr].
  destruct (exportAll_Ok b (deref (heap st) <$> keys st)) as (ws & ->).
  { apply Forall_fmap. apply Forall_forall. intros l Hl.
    apply list_elem_of_lookup in Hl as (i & Hi).
    destruct (Forall2_lookup_l _ _ _ _ _ Hr Hi) as (v & _ & w & Hw & _). by exists w. }
  simpl. f_equal. apply list_eq_same_length with (length vs).
  - rewrite length_fmap. by eapply Forall2_length.
  - by rewrite length_fmap.
  - intros i x y _. rewrite !list_lookup_fmap.
    destruct (vs !! i) as [v|] eqn:Hv; [|done].
    destruct (keys st !! i) as [l|] eqn:Hl; [|done]. simpl. intros [= <-] [= <-].
    destruct (Forall2_lookup_lr _ _ _ _ _ _ Hr Hl Hv) as (w & Hw & Hex).
    unfold wellFormed in Hwf. rewrite Forall_forall in Hwf.
    eapply exported_resolve; [| |exact Hw|exact Hex].
    + apply Hwf. by eapply list_elem_of_lookup_2.
    + intros c Hc. by apply deref_app_l.
Qed.

Lemma observed_grow (b : bool) (h hs : Heap) (ks : list loc) :
  Forall (λ l, l < length h) ks → observed b (h ++ hs) ks = observed b h ks.
Proof.
  intros Hks. unfold observed.
  assert (Hsame : deref (h ++ hs) <$> ks = deref h <$> ks).
  { apply Forall_fmap_ext. eapply Forall_impl; [exact Hks|].
    intros l Hl. by apply deref_app_l. }
  rewrite Hsame. destruct (exportAll b (deref h <$> ks)); [|done]. f_equal.
  apply Forall_fmap_ext. eapply Forall_impl; [exact Hks|].
  intros l Hl. unfold viewOf. by rewrite deref_app_l.
Qed.

(** *** Redaction *)

(** The source's table agrees with the specification's: every supported
    algorithm has an own transformer, and it removes its family's fields. *)
Lemma supported_family (a : string) :
  a ∈ supportedAlgs →
  ∃ t f, mapGet a = Some (OwnMember t) ∧ familyOf a = Some f ∧
         removedFields t = privateFields f.
Proof.
  unfold supportedAlgs, privateToPublicTransformerMap. cbn [fmap list_fmap fst].
  intros H.
  repeat (apply elem_of_cons in H as [->|H]; [eexists _, _; by split_and! |]).
  by apply elem_of_nil in H.
Qed.

Lemma exportOne_supported (o : Obj) (a : string) :
  getProp o "alg" = VStr a → a ∈ supportedAlgs →
  ∃ f, familyOf a = Some f ∧
       exportOne false o = Ok (ExCopy (removeAll (privateFields f) o)).
Proof.
  intros Ha Hsup. destruct (supported_family a Hsup) as (t & f & Hget & Hfam & Hfields).
  exists f. split; [done|]. unfold exportOne. by rewrite Ha, Hget, Hfields.
Qed.

Lemma exportOne_copied (b : bool) (h : Heap) (l : loc) :
  copied b h l → ∃ o, exportOne b (deref h l) = Ok (ExCopy o).
Proof.
  destruct b; [by eexists|].
  intros [?|(a & Ha & Hsup)]; [done|].
  destruct (exportOne_supported _ a Ha Hsup) as (f & _ & ->). by eexists.
Qed.

Lemma supported_wellFormed (st : State) : allSupported st → wellFormed st.
Proof.
  unfold wellFormed, allSupported. intros Hall. eapply Forall_impl; [exact Hall|].
  intros l (a & Ha & _).
  destruct (decide (l < length (heap st))) as [|Hge]; [done|].
  unfold deref in Ha. rewrite lookup_ge_None_2 in Ha by lia. done.
Qed.

(** The specification's table is the source's: each algorithm the
    specification names (RS256, RS384, RS512, PS256, PS384, PS512; ES256,
    ES256K, ES384, ES512; EdDSA) is an own key of
    [privateToPublicTransformerMap], and its transformer removes the fields
    the specification lists for its family. *)
Lemma family_supported (a : string) (f : Family) :
  familyOf a = Some f →
  a ∈ supportedAlgs ∧
  ∃ t, mapGet a = Some (OwnMember t) ∧ removedFields t = privateFields f.
Proof.
  unfold familyOf. intros Hf.
  case_bool_decide as H1; [|case_bool_decide as H2; [|case_bool_decide as H3; [|done]]];
    injection Hf as <-.
  - repeat (apply elem_of_cons in H1 as [->|H1];
            [split; [vm_compute; repeat constructor | by eexists] |]).
    by apply elem_of_nil in H1.
  - repeat (apply elem_of_cons in H2 as [->|H2];
            [split; [vm_compute; repeat constructor | by eexists] |]).
    by apply elem_of_nil in H2.
  - subst a. split; [vm_compute; repeat constructor | by eexists].
Qed.

Lemma exportOne_family (o : Obj) (a : string) (f : Family) :
  getProp o "alg" = VStr a → familyOf a = Some f →
  exportOne false o = Ok (ExCopy (removeAll (privateFields f) o)).
Proof.
  intros Ha Hf. destruct (family_supported a f Hf) as (_ & t & Hget & Hfields).
  unfold exportOne. by rewrite Ha, Hget, Hfields.
Qed.

Lemma allInFamilies_wellFormed (st : State) : allInFamilies st → wellFormed st.
Proof.
  unfold wellFormed, allInFamilies. intros Hall. eapply Forall_impl; [exact Hall|].
  intros l (a & f & Ha & _).
  destruct (decide (l < length (heap st))) as [|Hge]; [done|].
  unfold deref in Ha. rewrite lookup_ge_None_2 in Ha by lia. done.
Qed.

(** C3 — redaction completeness.  The algorithms of the specification's
    three families (RS256/384/512 and PS256/384/512; ES256/ES256K/ES384/
    ES512; EdDSA) are exactly the supported ones.  Whenever [toJSON(false)]
    returns, what it exports for a stored record whose algorithm is in a
    family is a new object that has lost exactly the private fields of that
    family (d, p, q, dp, dq, qi for RSA; d for ECDSA; d for EdDSA): each of
    these is absent and every other property has the value it has in the
    stored record.  And when every stored record has an algorithm of some
    family, [toJSON(false)] does return, with such an object for each
    record, in order. *)
Theorem redaction_completeness (st : State) :
  wellFormed st →
  (∀ a, a ∈ supportedAlgs ↔ ∃ f, familyOf a = Some f) ∧
  (allInFamilies st →
   ∃ out st',
     KeyRotator.toJSON false st = (Ok out, st') ∧
     Forall2 (λ l v, ∃ c a f,
         v = VRef c ∧ length (heap st) ≤ c ∧
         getProp (deref (heap st) l) "alg" = VStr a ∧ familyOf a = Some f ∧
         ∀ k, deref (heap st') c !! k
              = if bool_decide (k ∈ privateFields f) then None
                else deref (heap st) l !! k)
       (keys st) out) ∧
  ∀ out st',
    KeyRotator.toJSON false st = (Ok out, st') →
    Forall2 (λ l v, ∀ a f,
        getProp (deref (heap st) l) "alg" = VStr a → familyOf a = Some f →
        ∃ c,
          v = VRef c ∧ length (heap st) ≤ c ∧
          ∀ k, deref (heap st') c !! k
               = if bool_decide (k ∈ privateFields f) then None
                 else deref (heap st) l !! k)
      (keys st) out.
Proof.
  intros Hwf. destruct (toJSON_exported false st Hwf) as (r & hs & Hrun & Hr).
  split_and!.
  - intros a. split.
    + intros Hsup. destruct (supported_family a Hsup) as (t & f & _ & Hf & _). by exists f.
    + intros (f & Hf). by destruct (family_supported a f Hf).
  - intros Hall. unfold allInFamilies in Hall. rewrite Forall_forall in Hall.
    destruct r as [vs|err].
    + exists vs. eexists. split; [exact Hrun|]. cbn [heap].
      apply Forall2_same_length_lookup. split; [by eapply Forall2_length|].
      intros i l v Hl Hv.
      destruct (Forall2_lookup_lr _ _ _ _ _ _ Hr Hl Hv) as (w & Hw & Hex).
      destruct (Hall l) as (a & f & Ha & Hf); [by eapply list_elem_of_lookup_2|].
      rewrite (exportOne_family _ a f Ha Hf) in Hw. injection Hw as <-.
      destruct Hex as (c & -> & [Hlo _] & Hc).
      exists c, a, f. split_and!; [done..|].
      intros k. rewrite Hc. apply removeAll_lookup.
    + exfalso. apply exportAll_Thrown in Hr as (o & Ho & Hthrown).
      apply list_elem_of_fmap in Ho as (l & -> & Hl).
      destruct (Hall l Hl) as (a & f & Ha & Hf).
      rewrite (exportOne_family _ a f Ha Hf) in Hthrown. done.
  - intros out st'. rewrite Hrun. intros [= -> <-].
    eapply Forall2_impl; [exact Hr|]. cbn [heap].
    intros l v (w & Hw & Hex) a f Ha Hf.
    rewrite (exportOne_family _ a f Ha Hf) in Hw. injection Hw as <-.
    destruct Hex as (c & -> & [Hlo _] & Hc).
    exists c. split_and!; [done..|].
    intros k. rewrite Hc. apply removeAll_lookup.
Qed.

Lemma redaction_completeness_witness :
  (wellFormed supportedStore ∧ allInFamilies supportedStore) ∧
  ∃ out st',
    KeyRotator.toJSON false supportedStore = (Ok out, st') ∧
    Forall2 (λ l v, ∃ c a f,
        v = VRef c ∧ length (heap supportedStore) ≤ c ∧
        getProp (deref (heap supportedStore) l) "alg" = VStr a ∧ familyOf a = Some f ∧
        ∀ k, deref (heap st') c !! k
             = if bool_decide (k ∈ privateFields f) then None
               else deref (heap supportedStore) l !! k)
      (keys supportedStore) out.
Proof.
  assert (H1 : wellFormed supportedStore) by (unfold wellFormed; cbn; repeat constructor).
  assert (H2 : allInFamilies supportedStore).
  { repeat constructor.
    - exists "RS256", RSA. split; reflexivity.
    - exists "ES256", ECDSA. split; reflexivity. }
  split; [by split|].
  exact (proj1 (proj2 (redaction_completeness supportedStore H1)) H2).
Defined.

(** C4 — fail-closed export, at a store whose record names an inherited
    member of the transformer map.  The algorithm "constructor" is not a
    supported one, yet [toJSON(false)] raises nothing: the [in] test
    succeeds, the function found is [Object], and the value exported is the
    stored record itself, private exponent included. *)
Theorem export_inherited_alg_not_redacted :
  getProp (deref (heap inheritedAlgStore) 0) "alg" = VStr "constructor" ∧
  ("constructor" ∉ supportedAlgs) ∧
  KeyRotator.toJSON false inheritedAlgStore = (Ok [VRef 0], inheritedAlgStore) ∧
  getProp (deref (heap inheritedAlgStore) 0) "d" = VStr "private-exponent".
Proof.
  split_and!; [reflexivity | | reflexivity | reflexivity].
  unfold supportedAlgs, privateToPublicTransformerMap. cbn [fmap list_fmap fst].
  intros H. repeat (apply elem_of_cons in H as [H|H]; [discriminate H|]).
  by apply elem_of_nil in H.
Qed.

(** Short of the inherited names, the export does fail closed: a record
    without a string [alg], or whose [alg] the map does not know at all,
    makes [toJSON(false)] raise. *)
Lemma export_unknown_alg_raises (st : State) (l : loc) :
  wellFormed st →
  l ∈ keys st →
  (∀ a, getProp (deref (heap st) l) "alg" = VStr a → mapGet a = None) →
  ∃ e st', KeyRotator.toJSON false st = (Thrown e, st').
Proof.
  intros Hwf Hl Hbad.
  destruct (toJSON_exported false st Hwf) as (r & hs & Hrun & Hr).
  destruct r as [vs|e]; [|by eauto].
  exfalso. apply list_elem_of_lookup in Hl as (i & Hi).
  destruct (Forall2_lookup_l _ _ _ _ _ Hr Hi) as (v & _ & w & Hw & _).
  unfold exportOne in Hw.
  destruct (getProp (deref (heap st) l) "alg") as [| | | |a|] eqn:Ha; try done.
  by rewrite (Hbad a) in Hw.
Qed.

(** *** Frame *)

Lemma wellFormed_grow (h hs : Heap) (ks : list loc) (e : Entropy) :
  wellFormed (mkState h ks e) → wellFormed (mkState (h ++ hs) ks e).
Proof.
  unfold wellFormed. cbn [heap keys]. intros H.
  eapply Forall_impl; [exact H|]. intros l Hl. rewrite length_app. simpl in *. lia.
Qed.

(** C9 — export frame.  For either value of [includePrivateFields],
    [toJSON] leaves [#keys] as it is and changes no object that existed
    before the call: it only allocates, and what it exports for a record it
    redacts or copies is one of the new objects.  A second call right after
    the first shows the caller the same outcome: the same error, or a list
    of the same length whose entries have the same content. *)
Theorem export_frame (st : State) (includePrivateFields : bool) :
  wellFormed st →
  ∃ r1 st1 r2 st2,
    KeyRotator.toJSON includePrivateFields st = (r1, st1) ∧
    keys st1 = keys st ∧
    (∀ l, l < length (heap st) → heap st1 !! l = heap st !! l) ∧
    (∀ out, r1 = Ok out →
       Forall2 (λ l v, copied includePrivateFields (heap st) l →
                       ∃ c, v = VRef c ∧ length (heap st) ≤ c) (keys st) out) ∧
    KeyRotator.toJSON includePrivateFields st1 = (r2, st2) ∧
    observe (heap st2) r2 = observe (heap st1) r1.
Proof.
  intros Hwf. destruct st as [h ks e].
  destruct (toJSON_exported includePrivateFields _ Hwf) as (r1 & hs1 & Hrun1 & Hex1).
  destruct (toJSON_observe includePrivateFields _ Hwf) as (r1' & hs1' & Hrun1' & Hobs1).
  rewrite Hrun1 in Hrun1'. injection Hrun1' as <- Hhs. apply app_inv_head in Hhs as <-.
  cbn [heap keys entropy] in *.
  pose proof (wellFormed_grow h hs1 ks e Hwf) as Hwf1.
  destruct (toJSON_observe includePrivateFields _ Hwf1) as (r2 & hs2 & Hrun2 & Hobs2).
  cbn [heap keys entropy] in *.
  eexists r1, _, r2, _. split_and!; [exact Hrun1 | done | | | exact Hrun2 |].
  - intros l Hl. cbn [heap]. by rewrite lookup_app_l.
  - intros out ->. eapply Forall2_impl; [exact Hex1|].
    intros l v (w & Hw & Hex) Hcopied.
    destruct (exportOne_copied _ _ _ Hcopied) as (o & Ho).
    rewrite Ho in Hw. injection Hw as <-.
    destruct Hex as (c & -> & [Hlo _] & _). by exists c.
  - cbn [heap]. rewrite Hobs1, Hobs2. by apply observed_grow.
Qed.

Lemma export_frame_witness :
  wellFormed supportedStore ∧
  ∃ r1 st1 r2 st2,
    KeyRotator.toJSON false supportedStore = (r1, st1) ∧
    keys st1 = keys supportedStore ∧
    (∀ l, l < length (heap supportedStore) → heap st1 !! l = heap supportedStore !! l) ∧
    (∀ out, r1 = Ok out →
       Forall2 (λ l v, copied false (heap supportedStore) l →
                       ∃ c, v = VRef c ∧ length (heap supportedStore) ≤ c)
         (keys supportedStore) out) ∧
    KeyRotator.toJSON false st1 = (r2, st2) ∧
    observe (heap st2) r2 = observe (heap st1) r1.
Proof.
  assert (H : wellFormed supportedStore) by (unfold wellFormed; cbn; repeat constructor).
  split; [exact H | exact (export_frame supportedStore false H)].
Defined.

(** *** Export with the private fields *)

Lemma toJSON_loop_private (ks : list loc) (e : Entropy)
    (rest : list loc) (out : list Value) (h : Heap) :
  Forall (λ l, l < length h) rest →
  KeyRotator.toJSON_loop true rest out (mkState h ks e)
  = (Ok (out ++ (VRef <$> seq (length h) (length rest))),
     mkState (h ++ (deref h <$> rest)) ks e).
Proof.
  revert out h. induction rest as [|key rest IH]; intros out h Hrest.
  - simpl. by rewrite !app_nil_r.
  - apply Forall_cons in Hrest as [Hkey Hrest].
    cbn [KeyRotator.toJSON_loop]. unfold bind at 1.
    unfold KeyRotator.toJSON_body, spread, bind, readObj, alloc, ret. cbn [heap keys entropy].
    assert (Hsame : deref (h ++ [deref h key]) <$> rest = deref h <$> rest).
    { apply Forall_fmap_ext. eapply Forall_impl; [exact Hrest|].
      intros l Hl. by apply deref_app_l. }
    rewrite IH.
    + rewrite Hsame, length_app. cbn [length]. rewrite <- !app_assoc.
      replace (length h + 1) with (S (length h)) by lia. done.
    + eapply Forall_impl; [exact Hrest|]. intros l Hl. rewrite length_app. simpl in *. lia.
Qed.

(** C10 — export with [includePrivateFields = true] validates nothing and
    never raises: whatever the stored records' [alg] (missing and unsupported
    ones included) it returns one new object per stored record, in the
    current order of [#keys], holding exactly the properties of the stored
    record, and leaves [#keys] as it is. *)
Theorem export_private_total (st : State) :
  wellFormed st →
  ∃ out st',
    KeyRotator.toJSON true st = (Ok out, st') ∧
    keys st' = keys st ∧
    length out = length (keys st) ∧
    ∀ i l, keys st !! i = Some l →
      ∃ c, out !! i = Some (VRef c) ∧
           length (heap st) ≤ c ∧
           heap st' !! c = heap st !! l ∧
           heap st' !! l = heap st !! l.
Proof.
  intros Hwf. destruct st as [h ks e]. unfold wellFormed in Hwf. cbn [heap keys] in *.
  unfold KeyRotator.toJSON. cbn [keys]. rewrite toJSON_loop_private by done.
  eexists _, _. split; [done|]. cbn [heap keys]. split_and!.
  - done.
  - by rewrite app_nil_l, length_fmap, length_seq.
  - intros i l Hi.
    pose proof (lookup_lt_Some _ _ _ Hi) as Hilt.
    rewrite Forall_forall in Hwf.
    assert (Hl : l < length h) by (apply Hwf; by eapply list_elem_of_lookup_2).
    exists (length h + i). split_and!.
    + rewrite app_nil_l, list_lookup_fmap, lookup_seq_lt by done. done.
    + lia.
    + rewrite lookup_app_r by lia.
      replace (length h + i - length h) with i by lia.
      rewrite list_lookup_fmap, Hi. simpl. unfold deref.
      destruct (h !! l) eqn:Hh; [done|].
      apply lookup_ge_None in Hh. lia.
    + by rewrite lookup_app_l.
Qed.

Lemma export_private_total_witness :
  wellFormed mixedStore ∧
  ∃ out st',
    KeyRotator.toJSON true mixedStore = (Ok out, st') ∧
    keys st' = keys mixedStore ∧
    length out = length (keys mixedStore) ∧
    ∀ i l, keys mixedStore !! i = Some l →
      ∃ c, out !! i = Some (VRef c) ∧
           length (heap mixedStore) ≤ c ∧
           heap st' !! c = heap mixedStore !! l ∧
           heap st' !! l = heap mixedStore !! l.
Proof.
  assert (H : wellFormed mixedStore) by (unfold wellFormed; cbn; repeat constructor).
  split; [exact H | exact (export_private_total mixedStore H)].
Defined.

(** ** Normalisation and the facade *)

Lemma getProp_insert_eq (o : Obj) (k : string) (v : Value) :
  getProp (<[k := v]> o) k = v.
Proof. unfold getProp. by rewrite lookup_insert_eq. Qed.

Lemma getProp_insert_ne (o : Obj) (k k' : string) (v : Value) :
  k ≠ k' → getProp (<[k := v]> o) k' = getProp o k'.
Proof. intros Hne. unfold getProp. by rewrite lookup_insert_ne. Qed.

Lemma normalizeKey_fresh (o : Obj) (opts : option Opts) (h : Heap)
    (ks : list loc) (e : Entropy) :
  normalizeKey (length h) opts (mkState (h ++ [o]) ks e)
  = (Ok tt, mkState (h ++ [(normalized o opts e).1]) ks (normalized o opts e).2).
Proof.
  unfold normalizeKey, normalized, bind, readProp. cbn [heap]. rewrite deref_app_fresh.
  destruct (strict_eq (getProp o "kid") VUndef); cbn [negb]; [|done].
  destruct opts as [[[k|] crv]|]; cbn [fst snd];
    unfold generateRandomKid, writeProp, bind, randomBytes;
    cbn [heap keys entropy fst snd]; by rewrite alter_app_fresh.
Qed.

Lemma normalized_kid_defined (o : Obj) (opts : option Opts) (e : Entropy) :
  getProp (normalized o opts e).1 "kid" ≠ VUndef.
Proof.
  unfold normalized. destruct (strict_eq (getProp o "kid") VUndef) eqn:Hk.
  - destruct opts as [[[k|] crv]|]; cbn [fst]; by rewrite getProp_insert_eq.
  - cbn [fst]. by apply strict_eq_false in Hk.
Qed.

Lemma normalized_other (o : Obj) (opts : option Opts) (e : Entropy) (k : string) :
  k ≠ "kid" → getProp (normalized o opts e).1 k = getProp o k.
Proof.
  intros Hk. unfold normalized. destruct (strict_eq (getProp o "kid") VUndef); [|done].
  destruct opts as [[[k0|] crv]|]; cbn [fst]; by rewrite getProp_insert_ne.
Qed.

(** What [KeyRotator.add] does to [#keys] for a record with a kid: at most
    one record, the first with that kid, leaves; the new one goes last. *)
Lemma rotator_add_spec (h : Heap) (ks : list loc) (key : loc) (e : Entropy) :
  kidOf h key ≠ VUndef →
  ∃ ks',
    KeyRotator.add key (mkState h ks e) = (Ok tt, mkState h (ks' ++ [key]) e) ∧
    (ks' = ks ∨ ∃ pre x post, ks = pre ++ x :: post ∧ ks' = pre ++ post).
Proof.
  intros Hdef.
  destruct (findIndex_spec (λ z, strict_eq (kidOf h z) (kidOf h key)) ks)
    as [[_ Hall]|(pre & x & post & -> & Hpre & Hx & _)].
  - exists ks. split; [|by left]. apply rotator_add_fresh; [done|].
    eapply Forall_impl; [exact Hall|]. intros l Hl. by apply strict_eq_false.
  - exists (pre ++ post). split; [|right; by exists pre, x, post].
    rewrite <- app_assoc. apply rotator_add_found; [done | by apply strict_eq_true |].
    eapply Forall_impl; [exact Hpre|]. intros l Hl. by apply strict_eq_false.
Qed.

Lemma includes_true (l : list string) (v : Value) :
  includes l v = true ↔ ∃ a, v = VStr a ∧ a ∈ l.
Proof.
  destruct v; simpl; try (split; [done | by intros (? & ? & ?)]).
  rewrite bool_decide_eq_true. split; [by eauto | by intros (? & [= ->] & ?)].
Qed.

Lemma usablePrivateKey_checks (k : ParsedKey) :
  negb (instanceofKeyObject k) || negb (typeIsPrivate k) = false ↔ usablePrivateKey k.
Proof.
  unfold usablePrivateKey. split.
  - destruct k as [[[] handle|[] handle]|bs]; simpl; try done. by eauto.
  - by intros (handle & ->).
Qed.

Section Facade.

Variable generateKeyPair :
  string → GenerateKeyPairOptions → Entropy → (string + KeyPair) * Entropy.
Variable fromKeyLike : KeyLike → string + Obj.
Variable parseJwk : Obj → string + ParsedKey.

(** [add], step by step. *)
Lemma add_eval (jwk : Obj) (h : Heap) (ks : list loc) (e : Entropy) :
  let jwkUse := (normalized jwk None e).1 in
  let st1 := mkState (h ++ [jwkUse]) ks (normalized jwk None e).2 in
  JWKStore.add parseJwk jwk (mkState h ks e) =
    if strict_eq (getProp jwk "alg") VUndef then (Thrown UnspecifiedAlg, st1)
    else if negb (includes supportedAlgs (getProp jwk "alg"))
    then (Thrown (UnsupportedAlg (getProp jwk "alg")), st1)
    else
      match parseJwk jwkUse with
      | inl msg => (Thrown (CollaboratorError msg), st1)
      | inr k =>
          if negb (instanceofKeyObject k) || negb (typeIsPrivate k)
          then (Thrown InvalidJwkType, st1)
          else
            match KeyRotator.add (length h) st1 with
            | (Ok _, st2) => (Ok (length h), st2)
            | (Thrown err, st2) => (Thrown err, st2)
            end
      end.
Proof.
  intros jwkUse st1. unfold JWKStore.add, bind at 1, alloc. cbn [heap keys entropy].
  unfold bind at 1. rewrite normalizeKey_fresh. fold jwkUse. fold st1.
  unfold bind at 1, readProp. cbn [heap st1]. rewrite deref_app_fresh.
  unfold jwkUse at 1 2 3. rewrite normalized_other by done.
  destruct (strict_eq (getProp jwk "alg") VUndef); [done|].
  destruct (includes supportedAlgs (getProp jwk "alg")); [|done]. cbn [negb].
  unfold bind at 1, JWKStore.await_parseJwk, bind at 1, readObj.
  cbn [heap st1]. rewrite deref_app_fresh.
  destruct (parseJwk jwkUse) as [msg|k]; [done|]. unfold ret at 1.
  destruct (negb (instanceofKeyObject k) || negb (typeIsPrivate k)); [done|].
  unfold bind, ret. by destruct (KeyRotator.add (length h) st1) as [[[]|] ?].
Qed.

(** [generate], step by step. *)
Lemma generate_eval (alg : string) (opts : option Opts) (h : Heap)
    (ks : list loc) (e : Entropy) :
  JWKStore.generate generateKeyPair fromKeyLike alg opts (mkState h ks e) =
    match generateKeyPair alg
            (match opts with
             | Some {| opt_crv := Some c |} => {| gen_crv := Some c |}
             | _ => {| gen_crv := None |}
             end) e with
    | (inl msg, e1) => (Thrown (CollaboratorError msg), mkState h ks e1)
    | (inr kp, e1) =>
        match fromKeyLike (privateKey kp) with
        | inl msg => (Thrown (CollaboratorError msg), mkState h ks e1)
        | inr o =>
            let n := normalized (<["alg" := VStr alg]> o) opts e1 in
            match KeyRotator.add (length h) (mkState (h ++ [n.1]) ks n.2) with
            | (Ok _, st2) => (Ok (length h), st2)
            | (Thrown err, st2) => (Thrown err, st2)
            end
        end
    end.
Proof.
  unfold JWKStore.generate, bind at 1, JWKStore.await_generateKeyPair.
  cbn [heap keys entropy].
  destruct (generateKeyPair alg _ e) as [[msg|kp] e1]; [done|].
  unfold bind at 1, JWKStore.await_fromKeyLike.
  destruct (fromKeyLike (privateKey kp)) as [msg|o]; [done|].
  unfold alloc. cbn [heap keys entropy].
  unfold bind at 1, writeProp. cbn [heap keys entropy]. rewrite alter_app_fresh.
  unfold bind at 1. rewrite normalizeKey_fresh.
  unfold bind, ret. cbn zeta.
  by destruct (KeyRotator.add (length h) _) as [[[]|] ?].
Qed.

Lemma kidsDefined_grow (h hs : Heap) (ks : list loc) (e e' : Entropy) :
  kidsDefined (mkState h ks e) → kidsDefined (mkState (h ++ hs) ks e').
Proof.
  unfold kidsDefined. cbn [heap keys]. intros H.
  eapply Forall_impl; [exact H|]. intros l [Hl Hk]. split.
  - rewrite length_app. lia.
  - unfold kidOf in *. by rewrite deref_app_l.
Qed.

Lemma kidsDefined_subset (h : Heap) (ks ks' : list loc) (e e' : Entropy) :
  kidsDefined (mkState h ks e) → ks' ⊆ ks → kidsDefined (mkState h ks' e').
Proof.
  unfold kidsDefined. cbn [heap keys]. rewrite !Forall_forall.
  intros H Hsub l Hl. apply H. by apply Hsub.
Qed.

(** Adding a freshly made, normalised record keeps the invariant. *)
Lemma kidsDefined_add_fresh (h : Heap) (o : Obj) (ks : list loc) (e e' : Entropy) :
  kidsDefined (mkState h ks e) →
  getProp o "kid" ≠ VUndef →
  ∃ st2, KeyRotator.add (length h) (mkState (h ++ [o]) ks e') = (Ok tt, st2) ∧
         kidsDefined st2 ∧ length h ∈ keys st2 ∧ heap st2 = h ++ [o].
Proof.
  intros Hinv Hkid.
  destruct (rotator_add_spec (h ++ [o]) ks (length h) e') as (ks' & -> & Hks').
  { unfold kidOf. by rewrite deref_app_fresh. }
  eexists. split; [done|]. cbn [keys heap]. split_and!.
  - unfold kidsDefined. cbn [heap keys]. apply Forall_app. split.
    + apply (kidsDefined_subset (h ++ [o]) ks ks' e' e').
      * by apply (kidsDefined_grow h [o] ks e e').
      * destruct Hks' as [->|(pre & x & post & -> & ->)]; [done|].
        intros l Hl. apply elem_of_app in Hl. apply elem_of_app.
        destruct Hl; [by left | right; apply elem_of_cons; by right].
    + apply Forall_singleton. split.
      * rewrite length_app. simpl. lia.
      * unfold kidOf. by rewrite deref_app_fresh.
  - apply elem_of_app. right. by apply list_elem_of_singleton.
  - done.
Qed.

(** Every call keeps the invariant. *)
Lemma perform_kidsDefined (c : Call) (st : State) :
  kidsDefined st →
  kidsDefined (perform generateKeyPair fromKeyLike parseJwk c st).
Proof.
  intros Hinv. destruct st as [h ks e].
  destruct c as [alg opts|jwk|kid|b]; cbn [perform].
  - rewrite generate_eval.
    destruct (generateKeyPair alg _ e) as [[msg|kp] e1]; cbn [snd].
    { by apply (kidsDefined_subset h ks ks e e1). }
    destruct (fromKeyLike (privateKey kp)) as [msg|o]; cbn [snd].
    { by apply (kidsDefined_subset h ks ks e e1). }
    cbn zeta.
    destruct (kidsDefined_add_fresh h (normalized (<["alg" := VStr alg]> o) opts e1).1 ks e
                (normalized (<["alg" := VStr alg]> o) opts e1).2 Hinv)
      as (st2 & -> & Hst2 & _); [apply normalized_kid_defined | done].
  - rewrite add_eval. cbn zeta.
    pose proof (kidsDefined_grow h [(normalized jwk None e).1] ks e
                  (normalized jwk None e).2 Hinv) as Hgrow.
    destruct (strict_eq (getProp jwk "alg") VUndef); [done|].
    destruct (negb (includes supportedAlgs (getProp jwk "alg"))); [done|].
    destruct (parseJwk (normalized jwk None e).1) as [msg|k]; [done|].
    destruct (negb (instanceofKeyObject k) || negb (typeIsPrivate k)); [done|].
    destruct (kidsDefined_add_fresh h (normalized jwk None e).1 ks e
                (normalized jwk None e).2 Hinv)
      as (st2 & -> & Hst2 & _); [apply normalized_kid_defined | done].
  - unfold JWKStore.get.
    destruct (next_permutes (match kid with Some k => VStr k | None => VUndef end)
                (mkState h ks e)) as (r & ks' & -> & Hperm).
    cbn [snd heap keys entropy] in *.
    apply (kidsDefined_subset h ks ks' e e); [done|].
    intros l Hl. by rewrite <- Hperm.
  - unfold JWKStore.toJSON.
    assert (Hwf : wellFormed (mkState h ks e)).
    { unfold wellFormed. eapply Forall_impl; [exact Hinv|]. by intros l [? _]. }
    destruct (toJSON_observe b _ Hwf) as (r & hs & -> & _).
    cbn [snd heap keys entropy]. by apply (kidsDefined_grow h hs ks e e).
Qed.

Lemma reachable_kidsDefined (st : State) :
  reachable generateKeyPair fromKeyLike parseJwk st → kidsDefined st.
Proof.
  induction 1 as [e|c st Hreach IH].
  - constructor.
  - by apply perform_kidsDefined.
Qed.

(** Kids stay unique when the rotator takes a record in. *)
Lemma rotator_add_unique (h : Heap) (ks : list loc) (key : loc) (e : Entropy) :
  kidOf h key ≠ VUndef →
  NoDup (kidOf h <$> ks) →
  ∃ ks',
    KeyRotator.add key (mkState h ks e) = (Ok tt, mkState h (ks' ++ [key]) e) ∧
    NoDup (kidOf h <$> (ks' ++ [key])).
Proof.
  intros Hdef Hnd.
  destruct (findIndex_spec (λ z, strict_eq (kidOf h z) (kidOf h key)) ks)
    as [[_ Hall]|(pre & x & post & -> & Hpre & Hx & _)].
  - exists ks. split.
    + apply rotator_add_fresh; [done|].
      eapply Forall_impl; [exact Hall|]. intros l Hl. by apply strict_eq_false.
    + rewrite fmap_app. apply NoDup_app. split_and!; [done | | apply NoDup_singleton].
      intros v Hv Hv'. apply list_elem_of_singleton in Hv'. subst v.
      apply list_elem_of_fmap in Hv as (l & Hl1 & Hl2).
      rewrite Forall_forall in Hall. specialize (Hall l Hl2).
      apply strict_eq_false in Hall. congruence.
  - apply strict_eq_true in Hx. exists (pre ++ post). split.
    + rewrite <- app_assoc. apply rotator_add_found; [done..|].
      eapply Forall_impl; [exact Hpre|]. intros l Hl. by apply strict_eq_false.
    + rewrite !fmap_app. simpl. rewrite <- Hx.
      rewrite fmap_app, fmap_cons in Hnd.
      eapply NoDup_Permutation_proper; [|exact Hnd].
      rewrite <- app_assoc. apply Permutation_app_head.
      symmetry. apply Permutation_cons_append.
Qed.

Lemma kidUnique_grow (h hs : Heap) (ks : list loc) (e e' : Entropy) :
  wellFormed (mkState h ks e) →
  kidUnique (mkState h ks e) → kidUnique (mkState (h ++ hs) ks e').
Proof.
  unfold wellFormed, kidUnique. cbn [heap keys]. intros Hwf Hnd.
  replace (kidOf (h ++ hs) <$> ks) with (kidOf h <$> ks); [done|].
  apply Forall_fmap_ext. eapply Forall_impl; [exact Hwf|].
  intros l Hl. unfold kidOf. by rewrite deref_app_l.
Qed.

Lemma kidsDefined_wellFormed (st : State) : kidsDefined st → wellFormed st.
Proof.
  unfold kidsDefined, wellFormed. intros H.
  eapply Forall_impl; [exact H|]. by intros l [? _].
Qed.

(** Every call keeps kids unique. *)
Lemma perform_kidUnique (c : Call) (st : State) :
  kidsDefined st → kidUnique st →
  kidUnique (perform generateKeyPair fromKeyLike parseJwk c st).
Proof.
  intros Hinv Huniq. pose proof (kidsDefined_wellFormed st Hinv) as Hwf.
  destruct st as [h ks e].
  destruct c as [alg opts|jwk|kid|b]; cbn [perform].
  - rewrite generate_eval.
    destruct (generateKeyPair alg _ e) as [[msg|kp] e1]; cbn [snd]; [done|].
    destruct (fromKeyLike (privateKey kp)) as [msg|o]; cbn [snd]; [done|].
    cbn zeta.
    destruct (rotator_add_unique
                (h ++ [(normalized (<["alg" := VStr alg]> o) opts e1).1]) ks (length h)
                (normalized (<["alg" := VStr alg]> o) opts e1).2) as (ks' & -> & Hnd).
    { unfold kidOf. rewrite deref_app_fresh. apply normalized_kid_defined. }
    { by apply (kidUnique_grow h _ ks e e1). }
    done.
  - rewrite add_eval. cbn zeta.
    pose proof (kidUnique_grow h [(normalized jwk None e).1] ks e
                  (normalized jwk None e).2 Hwf Huniq) as Hgrow.
    destruct (strict_eq (getProp jwk "alg") VUndef); [done|].
    destruct (negb (includes supportedAlgs (getProp jwk "alg"))); [done|].
    destruct (parseJwk (normalized jwk None e).1) as [msg|k]; [done|].
    destruct (negb (instanceofKeyObject k) || negb (typeIsPrivate k)); [done|].
    destruct (rotator_add_unique (h ++ [(normalized jwk None e).1]) ks (length h)
                (normalized jwk None e).2) as (ks' & -> & Hnd); [|done..].
    unfold kidOf. rewrite deref_app_fresh. apply normalized_kid_defined.
  - unfold JWKStore.get.
    destruct (next_permutes (match kid with Some k => VStr k | None => VUndef end)
                (mkState h ks e)) as (r & ks' & -> & Hperm).
    unfold kidUnique in *. cbn [snd heap keys entropy] in *. by rewrite Hperm.
  - unfold JWKStore.toJSON.
    destruct (toJSON_exported b _ Hwf) as (r & hs & -> & _).
    cbn [snd heap keys entropy]. by apply (kidUnique_grow h hs ks e e).
Qed.

(** The hypothesis of C2 and C8 holds of every store: kids are unique in
    all reachable states. *)
Lemma reachable_kidUnique (st : State) :
  reachable generateKeyPair fromKeyLike parseJwk st → kidUnique st.
Proof.
  induction 1 as [e|c st Hreach IH].
  - unfold kidUnique. cbn. constructor.
  - apply perform_kidUnique; [by apply reachable_kidsDefined | done].
Qed.

End Facade.

(** C7 — the error contract of [add].  [add] fails with the
    unspecified-algorithm error exactly when the input has no [alg]; with the
    unsupported-algorithm error exactly when it has an [alg] outside the
    supported set; with the invalid-key-type error exactly when the parser
    was reached (the [alg] is a supported one), returned a key, and the key
    is not a node private key; and whenever [add] fails, with these or with
    the parser's own exception, [#keys] and every object that existed before
    the call are as they were. *)
Theorem add_error_contract (parseJwk : Obj → string + ParsedKey) (jwk : Obj) (st : State) :
  ((JWKStore.add parseJwk jwk st).1 = Thrown UnspecifiedAlg ↔
     getProp jwk "alg" = VUndef) ∧
  ((∃ a, (JWKStore.add parseJwk jwk st).1 = Thrown (UnsupportedAlg a)) ↔
     getProp jwk "alg" ≠ VUndef ∧
     ¬ ∃ a, getProp jwk "alg" = VStr a ∧ a ∈ supportedAlgs) ∧
  ((JWKStore.add parseJwk jwk st).1 = Thrown InvalidJwkType ↔
     (∃ a, getProp jwk "alg" = VStr a ∧ a ∈ supportedAlgs) ∧
     ∃ k, parseJwk (normalized jwk None (entropy st)).1 = inr k ∧ ¬ usablePrivateKey k) ∧
  (∀ err, (JWKStore.add parseJwk jwk st).1 = Thrown err →
     keys (JWKStore.add parseJwk jwk st).2 = keys st ∧
     ∀ l, l < length (heap st) →
          heap (JWKStore.add parseJwk jwk st).2 !! l = heap st !! l).
Proof.
  destruct st as [h ks e]. cbn [entropy heap keys]. rewrite add_eval.
  rewrite <- includes_true.
  destruct (strict_eq (getProp jwk "alg") VUndef) eqn:Hundef.
  { apply strict_eq_true in Hundef. cbn [fst snd heap keys]. split_and!.
    - done.
    - split; [by intros (? & ?) | by intros (? & ?)].
    - split; [done|]. rewrite Hundef. by intros (? & ?).
    - intros _ _. split; [done|]. intros l Hl. by rewrite lookup_app_l. }
  apply strict_eq_false in Hundef.
  destruct (includes supportedAlgs (getProp jwk "alg")) eqn:Hinc; cbn [negb].
  2: { cbn [fst snd heap keys]. split_and!.
       - split; [done | by intros ?].
       - split; [done | by eauto].
       - split; [done | by intros (? & ?)].
       - intros _ _. split; [done|]. intros l Hl. by rewrite lookup_app_l. }
  destruct (parseJwk (normalized jwk None e).1) as [msg|k] eqn:Hparse.
  { cbn [fst snd heap keys]. split_and!.
    - split; [done | by intros ?].
    - split; [by intros (? & ?) | by intros (? & ?)].
    - split; [done | by intros (_ & ? & ? & ?)].
    - intros _ _. split; [done|]. intros l Hl. by rewrite lookup_app_l. }
  destruct (negb (instanceofKeyObject k) || negb (typeIsPrivate k)) eqn:Hchk.
  { cbn [fst snd heap keys]. split_and!.
    - split; [done | by intros ?].
    - split; [by intros (? & ?) | by intros (? & ?)].
    - split; [|done]. intros _. split; [done|]. exists k. split; [done|].
      intros Hu. apply usablePrivateKey_checks in Hu. congruence.
    - intros _ _. split; [done|]. intros l Hl. by rewrite lookup_app_l. }
  destruct (rotator_add_spec (h ++ [(normalized jwk None e).1]) ks (length h)
              (normalized jwk None e).2) as (ks' & -> & _).
  { unfold kidOf. rewrite deref_app_fresh. apply normalized_kid_defined. }
  cbn [fst snd heap keys]. split_and!.
  - split; [done | by intros ?].
  - split; [by intros (? & ?) | by intros (? & ?)].
  - split; [done|]. intros (_ & k' & [= <-] & Hk').
    exfalso. apply Hk'. by apply usablePrivateKey_checks.
  - done.
Qed.

(** ** Kids *)

Lemma length_toHex (bs : list byte) : String.length (toHex bs) = 2 * length bs.
Proof. induction bs as [|b bs IH]; simpl; [done | rewrite IH; lia]. Qed.

Lemma length_randomBytes (n : nat) (e : Entropy) : length (randomBytes n e).1 = n.
Proof. unfold randomBytes. cbn [fst]. by rewrite length_map, length_seq. Qed.

Lemma hexDigit_hex (n : N) : isHexDigit (hexDigit n) = true.
Proof.
  destruct n as [|p]; [reflexivity|].
  do 4 (destruct p as [p|p|]; try reflexivity).
Qed.

Lemma toHex_hex (bs : list byte) :
  Forall (λ c, isHexDigit c = true) (String.list_ascii_of_string (toHex bs)).
Proof.
  induction bs as [|b bs IH]; simpl; [constructor|].
  constructor; [apply hexDigit_hex|]. constructor; [apply hexDigit_hex | done].
Qed.

(** What [normalizeKey] leaves in [jwk.kid]. *)
Lemma normalizeKey_kid (jwk : loc) (opts : option Opts) (st : State) :
  jwk < length (heap st) →
  ∃ st',
    normalizeKey jwk opts st = (Ok tt, st') ∧ keys st' = keys st ∧
    kidOf (heap st') jwk =
      if strict_eq (kidOf (heap st) jwk) VUndef then
        match opts ≫= opt_kid with
        | Some k => VStr k
        | None => VStr (toHex (randomBytes 40 (entropy st)).1)
        end
      else kidOf (heap st) jwk.
Proof.
  intros Hl. destruct st as [h ks e]. cbn [heap keys entropy] in *.
  unfold normalizeKey, bind, readProp. cbn [heap]. fold (kidOf h jwk).
  destruct (strict_eq (kidOf h jwk) VUndef); cbn [negb].
  2: { eexists. by split_and!. }
  assert (Hset : ∀ v, kidOf (alter (insert "kid" v) jwk h) jwk = v).
  { intros v. unfold kidOf, deref. rewrite list_lookup_alter_eq.
    destruct (h !! jwk) eqn:Hh; simpl; [apply getProp_insert_eq|].
    apply lookup_ge_None in Hh. lia. }
  destruct opts as [[[k|] crv]|]; simpl;
    unfold generateRandomKid, writeProp, bind, randomBytes; cbn [heap keys entropy fst snd];
    eexists; (split_and!; [reflexivity | reflexivity | cbn [heap]; apply Hset]).
Qed.

(** C6, as the code has it — kids are defined, not validated.  Every record
    stored by a store built from [new JWKStore()] by calls of [generate],
    [add], [get] and [toJSON] has a kid that is not [undefined].
    [normalizeKey] checks nothing: a kid already on the key is kept, a kid
    given in [opts] is taken as it is, and only when there is neither is the
    kid the hex encoding of 40 random bytes, 80 characters long. *)
Theorem kid_defined_not_validated
    (generateKeyPair : string → GenerateKeyPairOptions → Entropy → (string + KeyPair) * Entropy)
    (fromKeyLike : KeyLike → string + Obj)
    (parseJwk : Obj → string + ParsedKey)
    (st : State) :
  reachable generateKeyPair fromKeyLike parseJwk st →
  Forall (λ l, kidOf (heap st) l ≠ VUndef) (keys st) ∧
  ∀ (jwk : loc) (opts : option Opts) (st0 : State),
    jwk < length (heap st0) →
    (normalizeKey jwk opts st0).1 = Ok tt ∧
    kidOf (heap (normalizeKey jwk opts st0).2) jwk ≠ VUndef ∧
    (kidOf (heap st0) jwk ≠ VUndef →
       kidOf (heap (normalizeKey jwk opts st0).2) jwk = kidOf (heap st0) jwk) ∧
    (kidOf (heap st0) jwk = VUndef → ∀ k, opts ≫= opt_kid = Some k →
       kidOf (heap (normalizeKey jwk opts st0).2) jwk = VStr k) ∧
    (kidOf (heap st0) jwk = VUndef → opts ≫= opt_kid = None →
       ∃ bs, bs = (randomBytes 40 (entropy st0)).1 ∧ length bs = 40 ∧
             kidOf (heap (normalizeKey jwk opts st0).2) jwk = VStr (toHex bs) ∧
             String.length (toHex bs) = 80 ∧
             Forall (λ c, isHexDigit c = true) (String.list_ascii_of_string (toHex bs))).
Proof.
  intros Hreach. split.
  - apply reachable_kidsDefined in Hreach. unfold kidsDefined in Hreach.
    eapply Forall_impl; [exact Hreach|]. by intros l [_ ?].
  - intros jwk opts st0 Hl.
    destruct (normalizeKey_kid jwk opts st0 Hl) as (st' & Hrun & _ & Hkid).
    rewrite Hrun. cbn [fst snd]. rewrite Hkid.
    destruct (strict_eq (kidOf (heap st0) jwk) VUndef) eqn:Hb.
    + apply strict_eq_true in Hb. split_and!.
      * done.
      * by destruct (opts ≫= opt_kid).
      * done.
      * by intros _ k ->.
      * intros _ ->. eexists. split; [done|].
        rewrite length_toHex, length_randomBytes. split_and!; [done..|].
        apply toHex_hex.
    + apply strict_eq_false in Hb. by split_and!.
Qed.

Lemma kid_defined_not_validated_witness :
  reachable sampleGenerateKeyPair sampleFromKeyLike sampleParseJwk
    (perform sampleGenerateKeyPair sampleFromKeyLike sampleParseJwk
       (CallAdd emptyKidJwk) emptyStore) ∧
  Forall (λ l, kidOf (heap (perform sampleGenerateKeyPair sampleFromKeyLike sampleParseJwk
                              (CallAdd emptyKidJwk) emptyStore)) l ≠ VUndef)
    (keys (perform sampleGenerateKeyPair sampleFromKeyLike sampleParseJwk
             (CallAdd emptyKidJwk) emptyStore)).
Proof.
  assert (H : reachable sampleGenerateKeyPair sampleFromKeyLike sampleParseJwk
                (perform sampleGenerateKeyPair sampleFromKeyLike sampleParseJwk
                   (CallAdd emptyKidJwk) emptyStore))
    by (apply reachable_call, reachable_new).
  split; [exact H|].
  exact (proj1 (kid_defined_not_validated _ _ _ _ H)).
Defined.

(** C6 as claimed fails: a kid that is the empty string is accepted.  [add]
    stores the key as it is, and [normalizeKey] takes an empty [opts.kid]
    for the kid of a key that has none. *)
Lemma empty_kid_is_stored :
  (JWKStore.add sampleParseJwk emptyKidJwk emptyStore).1 = Ok 0 ∧
  keys (JWKStore.add sampleParseJwk emptyKidJwk emptyStore).2 = [0] ∧
  kidOf (heap (JWKStore.add sampleParseJwk emptyKidJwk emptyStore).2) 0 = VStr "" ∧
  (normalizeKey 0 (Some {| opt_kid := Some ""; opt_crv := None |})
     (mkState [∅] [] zeroEntropy)).1 = Ok tt ∧
  kidOf (heap (normalizeKey 0 (Some {| opt_kid := Some ""; opt_crv := None |})
                 (mkState [∅] [] zeroEntropy)).2) 0 = VStr "".
Proof. by vm_compute. Qed.

(** ** Algorithms on the two entry paths *)

(** What [add] lets in has a supported algorithm. *)
Lemma add_stores_supported_alg (parseJwk : Obj → string + ParsedKey) (jwk : Obj)
    (st st' : State) (l : loc) :
  JWKStore.add parseJwk jwk st = (Ok l, st') →
  ∃ a, getProp (deref (heap st') l) "alg" = VStr a ∧ a ∈ supportedAlgs.
Proof.
  destruct st as [h ks e]. rewrite add_eval. cbn zeta.
  destruct (strict_eq (getProp jwk "alg") VUndef); [done|].
  destruct (includes supportedAlgs (getProp jwk "alg")) eqn:Hinc; [|done]. cbn [negb].
  destruct (parseJwk (normalized jwk None e).1) as [msg|k]; [done|].
  destruct (negb (instanceofKeyObject k) || negb (typeIsPrivate k)); [done|].
  destruct (rotator_add_spec (h ++ [(normalized jwk None e).1]) ks (length h)
              (normalized jwk None e).2) as (ks' & -> & _).
  { unfold kidOf. rewrite deref_app_fresh. apply normalized_kid_defined. }
  intros [= <- <-]. cbn [heap]. rewrite deref_app_fresh, normalized_other by done.
  by apply includes_true.
Qed.

(** C5, on the [generate] path — no validation of the algorithm.  Whatever
    algorithm the key generator accepts, [generate] stamps it on the new
    record and stores the record; [supportedAlgs] is not consulted. *)
Theorem generate_stores_unchecked_alg
    (generateKeyPair : string → GenerateKeyPairOptions → Entropy → (string + KeyPair) * Entropy)
    (fromKeyLike : KeyLike → string + Obj)
    (alg : string) (opts : option Opts) (st : State) :
  (∀ go e, ∃ kp e', generateKeyPair alg go e = (inr kp, e')) →
  (∀ k, ∃ o, fromKeyLike k = inr o) →
  ∃ st',
    JWKStore.generate generateKeyPair fromKeyLike alg opts st
    = (Ok (length (heap st)), st') ∧
    length (heap st) ∈ keys st' ∧
    getProp (deref (heap st') (length (heap st))) "alg" = VStr alg.
Proof.
  intros Hgen Hconv. destruct st as [h ks e]. cbn [heap].
  rewrite generate_eval.
  match goal with |- context [generateKeyPair alg ?go e] =>
    destruct (Hgen go e) as (kp & e1 & ->) end.
  destruct (Hconv (privateKey kp)) as (o & ->). cbn zeta.
  destruct (rotator_add_spec (h ++ [(normalized (<["alg" := VStr alg]> o) opts e1).1]) ks
              (length h) (normalized (<["alg" := VStr alg]> o) opts e1).2)
    as (ks' & -> & _).
  { unfold kidOf. rewrite deref_app_fresh. apply normalized_kid_defined. }
  eexists. split; [done|]. cbn [heap keys]. split.
  - apply elem_of_app. right. by apply list_elem_of_singleton.
  - rewrite deref_app_fresh, normalized_other by done. apply getProp_insert_eq.
Qed.

Lemma generate_stores_unchecked_alg_witness :
  ("RSA-OAEP" ∉ supportedAlgs) ∧
  ∃ st',
    JWKStore.generate sampleGenerateKeyPair sampleFromKeyLike "RSA-OAEP" None emptyStore
    = (Ok (length (heap emptyStore)), st') ∧
    length (heap emptyStore) ∈ keys st' ∧
    getProp (deref (heap st') (length (heap emptyStore))) "alg" = VStr "RSA-OAEP".
Proof.
  split.
  - unfold supportedAlgs, privateToPublicTransformerMap. cbn [fmap list_fmap fst].
    intros H. repeat (apply elem_of_cons in H as [H|H]; [discriminate H|]).
    by apply elem_of_nil in H.
  - apply (generate_stores_unchecked_alg sampleGenerateKeyPair sampleFromKeyLike
             "RSA-OAEP" None emptyStore).
    + intros go e. by eexists _, _.
    + intros k. by eexists.
Defined.

(** ** Instances *)

Lemma add_replaces_duplicate_witness :
  (kidUnique duplicateStore ∧
   kidOf (heap duplicateStore) 2 ≠ VUndef ∧
   0 ∈ keys duplicateStore ∧
   kidOf (heap duplicateStore) 0 = kidOf (heap duplicateStore) 2) ∧
  ∃ pre post,
    keys duplicateStore = pre ++ 0 :: post ∧
    KeyRotator.add 2 duplicateStore
    = (Ok tt, mkState (heap duplicateStore) (pre ++ post ++ [2]) (entropy duplicateStore)) ∧
    Forall (λ l, kidOf (heap duplicateStore) l ≠ kidOf (heap duplicateStore) 2) (pre ++ post) ∧
    last (pre ++ post ++ [2]) = Some 2 ∧
    kidUnique (mkState (heap duplicateStore) (pre ++ post ++ [2]) (entropy duplicateStore)).
Proof.
  assert (H1 : kidUnique duplicateStore).
  { unfold kidUnique. apply (bool_decide_unpack _). by vm_compute. }
  assert (H2 : kidOf (heap duplicateStore) 2 ≠ VUndef) by (by vm_compute).
  assert (H3 : 0 ∈ keys duplicateStore) by (cbn; apply list_elem_of_here).
  assert (H4 : kidOf (heap duplicateStore) 0 = kidOf (heap duplicateStore) 2)
    by reflexivity.
  split; [by split_and! | exact (add_replaces_duplicate duplicateStore 2 0 H1 H2 H3 H4)].
Defined.

Lemma pinned_lookup_witness :
  kidUnique mixedStore ∧
  ∃ r,
    (JWKStore.get (Some "b") mixedStore).1 = Ok r ∧
    ((let* _ := getMany [None; Some "a"; None; None] in JWKStore.get (Some "b"))
       mixedStore).1 = Ok r ∧
    match r with
    | Some l =>
        l ∈ keys mixedStore ∧ kidOf (heap mixedStore) l = VStr "b" ∧
        ∀ l', l' ∈ keys mixedStore → kidOf (heap mixedStore) l' = VStr "b" → l' = l
    | None => ∀ l, l ∈ keys mixedStore → kidOf (heap mixedStore) l ≠ VStr "b"
    end.
Proof.
  assert (H : kidUnique mixedStore).
  { unfold kidUnique. apply (bool_decide_unpack _). by vm_compute. }
  split; [exact H | exact (pinned_lookup mixedStore "b" [None; Some "a"; None; None] H)].
Defined.

(** * Further properties *)

(** ** Selection *)

(** X1 — when [get] finds nothing.  [get] answers [undefined] exactly when
    the store is empty or a kid is given that no stored record has; the
    store is then left as it was. *)
Theorem get_none_iff (st : State) (kid : option string) :
  ((JWKStore.get kid st).1 = Ok None ↔
     keys st = [] ∨
     ∃ k, kid = Some k ∧ Forall (λ l, kidOf (heap st) l ≠ VStr k) (keys st)) ∧
  ((JWKStore.get kid st).1 = Ok None → (JWKStore.get kid st).2 = st).
Proof.
  unfold JWKStore.get. destruct kid as [k|].
  - destruct (next_pinned_spec (VStr k) st) as [[Hall ->]|(pre & x & post & Hks & Hx & _ & ->)];
      [done | |]; cbn [fst snd].
    + split; [|done]. split; [|done]. intros _. right. by exists k.
    + split; [|done]. split; [done|].
      intros [Hnil|(k' & [= <-] & Hall)].
      * rewrite Hks in Hnil. by destruct pre.
      * rewrite Hks, Forall_app, Forall_cons in Hall. by destruct Hall as (_ & ? & _).
  - destruct st as [h [|x xs] e].
    + cbn. split; [|done]. split; [by left | done].
    + rewrite next_unpinned_cons. cbn [fst snd keys]. split; [|done].
      split; [done|]. by intros [?|(k & ? & _)].
Qed.

(** X2 — a selection moves its record to the tail.  When [get] returns a
    record, that record leaves its place in [#keys] and goes last, and the
    other records keep their order; nothing else changes.  Without a kid the
    record is the head; with a kid it is the first record that has it. *)
Theorem get_moves_to_tail (st : State) (kid : option string) (l : loc) :
  (JWKStore.get kid st).1 = Ok (Some l) →
  ∃ pre post,
    keys st = pre ++ l :: post ∧
    (JWKStore.get kid st).2 = mkState (heap st) (pre ++ post ++ [l]) (entropy st) ∧
    (kid = None → pre = []) ∧
    (∀ k, kid = Some k →
       kidOf (heap st) l = VStr k ∧ Forall (λ x, kidOf (heap st) x ≠ VStr k) pre).
Proof.
  unfold JWKStore.get. destruct kid as [k|].
  - destruct (next_pinned_spec (VStr k) st) as [[Hall ->]|(pre & x & post & Hks & Hx & Hpre & ->)];
      [done | |]; cbn [fst snd]; [done|].
    intros [= ->]. exists pre, post. split_and!; [done | done | done |].
    by intros k' [= <-].
  - destruct st as [h [|x xs] e]; [done|].
    rewrite next_unpinned_cons. cbn [fst snd heap keys entropy].
    intros [= ->]. exists [], xs. by split_and!.
Qed.

Lemma get_moves_to_tail_witness :
  (JWKStore.get (Some "a") mixedStore).1 = Ok (Some 0) ∧
  ∃ pre post,
    keys mixedStore = pre ++ 0 :: post ∧
    (JWKStore.get (Some "a") mixedStore).2
    = mkState (heap mixedStore) (pre ++ post ++ [0]) (entropy mixedStore) ∧
    (Some "a" = None → pre = []) ∧
    (∀ k, Some "a" = Some k →
       kidOf (heap mixedStore) 0 = VStr k ∧
       Forall (λ x, kidOf (heap mixedStore) x ≠ VStr k) pre).
Proof.
  assert (H : (JWKStore.get (Some "a") mixedStore).1 = Ok (Some 0)) by reflexivity.
  split; [exact H | exact (get_moves_to_tail mixedStore (Some "a") 0 H)].
Defined.

(** X3 — selections never change the records.  Any run of calls of [get],
    with or without kids, leaves every object and the random source alone
    and only reorders [#keys]: the same records are stored, as many as
    before, none twice if none was, and with unique kids if they were. *)
Theorem selections_keep_records (kids : list (option string)) (st : State) :
  ∃ st',
    getMany kids st = (Ok tt, st') ∧
    heap st' = heap st ∧ entropy st' = entropy st ∧
    keys st' ≡ₚ keys st ∧
    length (keys st') = length (keys st) ∧
    (NoDup (keys st) → NoDup (keys st')) ∧
    (wellFormed st → wellFormed st') ∧
    (kidUnique st → kidUnique st').
Proof.
  destruct (getMany_permutes kids st) as (ks' & Hrun & Hperm).
  eexists. split; [exact Hrun|]. cbn [heap keys entropy].
  split_and!; [done | done | done | by rewrite Hperm | | |].
  - intros Hnd. by rewrite Hperm.
  - unfold wellFormed. cbn [heap keys]. intros Hwf. by rewrite Hperm.
  - unfold kidUnique. cbn [heap keys]. intros Hnd. by rewrite Hperm.
Qed.

(** ** Adding to the rotator *)

(** X4 — a record with a new kid is appended.  When the record has a kid
    and no stored record has it, [KeyRotator.add] puts the record last and
    leaves the stored ones in place; kids stay unique if they were. *)
Theorem rotator_add_new_kid (st : State) (key : loc) :
  kidOf (heap st) key ≠ VUndef →
  Forall (λ l, kidOf (heap st) l ≠ kidOf (heap st) key) (keys st) →
  KeyRotator.add key st = (Ok tt, mkState (heap st) (keys st ++ [key]) (entropy st)) ∧
  (kidUnique st → kidUnique (mkState (heap st) (keys st ++ [key]) (entropy st))).
Proof.
  intros Hdef Hnew. destruct st as [h ks e]. cbn [heap keys entropy] in *.
  split; [by apply rotator_add_fresh|].
  unfold kidUnique. cbn [heap keys]. intros Hnd.
  rewrite fmap_app. apply NoDup_app. split_and!; [done | | apply NoDup_singleton].
  intros v Hv Hv'. apply list_elem_of_singleton in Hv'. subst v.
  apply list_elem_of_fmap in Hv as (l & Hl1 & Hl2).
  rewrite Forall_forall in Hnew. apply (Hnew l Hl2). done.
Qed.

Lemma rotator_add_new_kid_witness :
  (kidOf (heap supportedStore) 2 ≠ VUndef ∧
   Forall (λ l, kidOf (heap supportedStore) l ≠ kidOf (heap supportedStore) 2)
     (keys supportedStore)) ∧
  KeyRotator.add 2 supportedStore
  = (Ok tt, mkState (heap supportedStore) (keys supportedStore ++ [2])
              (entropy supportedStore)) ∧
  (kidUnique supportedStore →
   kidUnique (mkState (heap supportedStore) (keys supportedStore ++ [2])
                (entropy supportedStore))).
Proof.
  assert (H1 : kidOf (heap supportedStore) 2 ≠ VUndef) by (by vm_compute).
  assert (H2 : Forall (λ l, kidOf (heap supportedStore) l ≠ kidOf (heap supportedStore) 2)
                 (keys supportedStore)).
  { repeat constructor; by vm_compute. }
  split; [by split | exact (rotator_add_new_kid supportedStore 2 H1 H2)].
Defined.

(** X5 — a record without a kid pushes the head out.  [KeyRotator.add]
    looks the record up with [findNext(key.kid)]; when [key.kid] is
    [undefined] that is the unpinned lookup, so the record at the head of
    [#keys], whatever its kid, is removed before the new record is
    appended.  ([JWKStore] never calls it so: [normalizeKey] runs first.) *)
Theorem rotator_add_without_kid (st : State) (key : loc) :
  kidOf (heap st) key = VUndef →
  KeyRotator.add key st
  = (Ok tt, mkState (heap st) (drop 1 (keys st) ++ [key]) (entropy st)).
Proof.
  intros Hk. destruct st as [h ks e]. cbn [heap keys entropy] in *.
  unfold KeyRotator.add, bind at 1, readProp. cbn [heap]. fold (kidOf h key). rewrite Hk.
  destruct ks as [|x xs]; [done|].
  unfold bind at 1. rewrite findNext_unpinned.
  unfold bind, KeyRotator.keysSplice, KeyRotator.keysPush, ret. cbn [heap keys entropy].
  change (0 >? -1)%Z with true. cbv beta iota. cbn [heap keys entropy].
  by rewrite splice_head.
Qed.

Lemma rotator_add_without_kid_witness :
  kidOf (heap kidlessStore) 2 = VUndef ∧
  KeyRotator.add 2 kidlessStore
  = (Ok tt, mkState (heap kidlessStore) (drop 1 (keys kidlessStore) ++ [2])
              (entropy kidlessStore)).
Proof.
  assert (H : kidOf (heap kidlessStore) 2 = VUndef) by reflexivity.
  split; [exact H | exact (rotator_add_without_kid kidlessStore 2 H)].
Defined.

(** ** The facade: what is stored can be looked up *)

Lemma first_match_unique {A} (P : A → Prop) (l1 l2 l1' l2' : list A) (x x' : A) :
  l1 ++ x :: l2 = l1' ++ x' :: l2' →
  Forall (λ y, ¬ P y) l1 → P x →
  Forall (λ y, ¬ P y) l1' → P x' →
  l1 = l1' ∧ x = x' ∧ l2 = l2'.
Proof.
  revert l1'. induction l1 as [|a l1 IH]; intros l1' Heq Hl1 Hx Hl1' Hx'.
  - destruct l1' as [|b l1']; simpl in Heq.
    + by inversion Heq.
    + inversion Heq; subst. apply Forall_cons in Hl1' as [Hb _]. done.
  - apply Forall_cons in Hl1 as [Ha Hl1].
    destruct l1' as [|b l1']; simpl in Heq; inversion Heq; subst.
    + done.
    + apply Forall_cons in Hl1' as [_ Hl1'].
      destruct (IH l1' H1 Hl1 Hx Hl1' Hx') as (-> & -> & ->). done.
Qed.

(** With unique kids, the record at the tail is found by its kid, and the
    selection leaves it where it is. *)
Lemma get_tail_record (h : Heap) (ks : list loc) (l : loc) (e : Entropy) (k : string) :
  NoDup (kidOf h <$> (ks ++ [l])) →
  kidOf h l = VStr k →
  JWKStore.get (Some k) (mkState h (ks ++ [l]) e) = (Ok (Some l), mkState h (ks ++ [l]) e).
Proof.
  intros Hnd Hk. unfold JWKStore.get.
  assert (Hks : Forall (λ y, ¬ kidOf h y = VStr k) ks).
  { rewrite fmap_app in Hnd. apply NoDup_app in Hnd as (_ & Hdisj & _).
    apply Forall_forall. intros y Hy Heq. apply (Hdisj (kidOf h y)).
    - by apply list_elem_of_fmap_2.
    - rewrite Heq, <- Hk. apply list_elem_of_singleton. done. }
  destruct (next_pinned_spec (VStr k) (mkState h (ks ++ [l]) e))
    as [[Hall _]|(pre & x & post & Heq & Hx & Hpre & ->)]; [done | |];
    cbn [heap keys entropy] in *.
  - exfalso. rewrite Forall_app, Forall_singleton in Hall. by destruct Hall.
  - destruct (first_match_unique (λ y, kidOf h y = VStr k) ks [] pre post l x)
      as (<- & <- & <-); [done..|].
    done.
Qed.

Section FacadeRoundTrips.

Variable generateKeyPair :
  string → GenerateKeyPairOptions → Entropy → (string + KeyPair) * Entropy.
Variable fromKeyLike : KeyLike → string + Obj.
Variable parseJwk : Obj → string + ParsedKey.

(** What a successful [add] leaves behind. *)
Lemma add_success (jwk : Obj) (h : Heap) (ks : list loc) (e : Entropy)
    (l : loc) (st' : State) :
  wellFormed (mkState h ks e) → kidUnique (mkState h ks e) →
  JWKStore.add parseJwk jwk (mkState h ks e) = (Ok l, st') →
  l = length h ∧
  ∃ ks',
    st' = mkState (h ++ [(normalized jwk None e).1]) (ks' ++ [l]) (normalized jwk None e).2 ∧
    NoDup (kidOf (h ++ [(normalized jwk None e).1]) <$> (ks' ++ [l])).
Proof.
  intros Hwf Huniq. rewrite add_eval. cbn zeta.
  destruct (strict_eq (getProp jwk "alg") VUndef); [done|].
  destruct (negb (includes supportedAlgs (getProp jwk "alg"))); [done|].
  destruct (parseJwk (normalized jwk None e).1) as [msg|k]; [done|].
  destruct (negb (instanceofKeyObject k) || negb (typeIsPrivate k)); [done|].
  destruct (rotator_add_unique (h ++ [(normalized jwk None e).1]) ks (length h)
              (normalized jwk None e).2) as (ks' & -> & Hnd).
  { unfold kidOf. rewrite deref_app_fresh. apply normalized_kid_defined. }
  { by apply (kidUnique_grow h _ ks e e). }
  intros [= <- <-]. split; [done|]. by exists ks'.
Qed.

(** What a successful [generate] leaves behind. *)
Lemma generate_success (alg : string) (opts : option Opts) (h : Heap) (ks : list loc)
    (e : Entropy) (l : loc) (st' : State) :
  wellFormed (mkState h ks e) → kidUnique (mkState h ks e) →
  JWKStore.generate generateKeyPair fromKeyLike alg opts (mkState h ks e) = (Ok l, st') →
  l = length h ∧
  ∃ go kp e1 o ks',
    generateKeyPair alg go e = (inr kp, e1) ∧
    fromKeyLike (privateKey kp) = inr o ∧
    st' = mkState (h ++ [(normalized (<["alg" := VStr alg]> o) opts e1).1]) (ks' ++ [l])
            (normalized (<["alg" := VStr alg]> o) opts e1).2 ∧
    NoDup (kidOf (h ++ [(normalized (<["alg" := VStr alg]> o) opts e1).1])
             <$> (ks' ++ [l])).
Proof.
  intros Hwf Huniq. rewrite generate_eval.
  match goal with |- context [generateKeyPair alg ?go e] =>
    destruct (generateKeyPair alg go e) as [[msg|kp] e1] eqn:Hgen; [done|];
    set (go0 := go) in * end.
  destruct (fromKeyLike (privateKey kp)) as [msg|o] eqn:Hconv; [done|]. cbn zeta.
  destruct (rotator_add_unique
              (h ++ [(normalized (<["alg" := VStr alg]> o) opts e1).1]) ks (length h)
              (normalized (<["alg" := VStr alg]> o) opts e1).2) as (ks' & -> & Hnd).
  { unfold kidOf. rewrite deref_app_fresh. apply normalized_kid_defined. }
  { by apply (kidUnique_grow h _ ks e e1). }
  intros [= <- <-]. split; [done|]. by exists go0, kp, e1, o, ks'.
Qed.

End FacadeRoundTrips.

Lemma normalized_opts_kid (o : Obj) (opts : option Opts) (e : Entropy) (k : string) :
  getProp o "kid" = VUndef → opts ≫= opt_kid = Some k →
  getProp (normalized o opts e).1 "kid" = VStr k.
Proof.
  intros Ho Hk. unfold normalized. rewrite Ho.
  destruct opts as [[[k0|] crv]|]; simpl in Hk; try done.
  injection Hk as ->. cbn. apply getProp_insert_eq.
Qed.

Lemma normalized_kept_kid (o : Obj) (opts : option Opts) (e : Entropy) :
  getProp o "kid" ≠ VUndef → (normalized o opts e).1 = o.
Proof.
  intros Ho. unfold normalized. apply strict_eq_false in Ho. by rewrite Ho.
Qed.

(** X6 — [add], then [get].  In a store with unique kids, the record a
    successful [add] returns is a new object, the last of [#keys]; it has
    the properties of the input, with the input's kid if it had one; kids
    are still unique; and [get] with the record's kid returns this very
    record and leaves the store as it is. *)
Theorem add_then_get (parseJwk : Obj → string + ParsedKey) (jwk : Obj)
    (st st' : State) (l : loc) :
  wellFormed st → kidUnique st →
  JWKStore.add parseJwk jwk st = (Ok l, st') →
  l = length (heap st) ∧
  last (keys st') = Some l ∧
  (∀ p, p ≠ "kid" → getProp (deref (heap st') l) p = getProp jwk p) ∧
  (getProp jwk "kid" ≠ VUndef → deref (heap st') l = jwk) ∧
  kidUnique st' ∧
  (∀ k, kidOf (heap st') l = VStr k →
        JWKStore.get (Some k) st' = (Ok (Some l), st')).
Proof.
  destruct st as [h ks e]. intros Hwf Huniq Hadd.
  destruct (add_success parseJwk jwk h ks e l st' Hwf Huniq Hadd) as (-> & ks' & -> & Hnd).
  cbn [heap keys]. split_and!.
  - done.
  - by rewrite last_snoc.
  - intros p Hp. rewrite deref_app_fresh. by apply normalized_other.
  - intros Hkid. rewrite deref_app_fresh. by apply normalized_kept_kid.
  - done.
  - intros k Hk. by apply get_tail_record.
Qed.

Lemma add_then_get_witness :
  (wellFormed emptyStore ∧ kidUnique emptyStore ∧
   JWKStore.add sampleParseJwk kidlessJwk emptyStore
   = (Ok 0, (JWKStore.add sampleParseJwk kidlessJwk emptyStore).2)) ∧
  0 = length (heap emptyStore) ∧
  last (keys (JWKStore.add sampleParseJwk kidlessJwk emptyStore).2) = Some 0 ∧
  (∀ p, p ≠ "kid" →
        getProp (deref (heap (JWKStore.add sampleParseJwk kidlessJwk emptyStore).2) 0) p
        = getProp kidlessJwk p) ∧
  (getProp kidlessJwk "kid" ≠ VUndef →
   deref (heap (JWKStore.add sampleParseJwk kidlessJwk emptyStore).2) 0 = kidlessJwk) ∧
  kidUnique (JWKStore.add sampleParseJwk kidlessJwk emptyStore).2 ∧
  (∀ k, kidOf (heap (JWKStore.add sampleParseJwk kidlessJwk emptyStore).2) 0 = VStr k →
        JWKStore.get (Some k) (JWKStore.add sampleParseJwk kidlessJwk emptyStore).2
        = (Ok (Some 0), (JWKStore.add sampleParseJwk kidlessJwk emptyStore).2)).
Proof.
  assert (H1 : wellFormed emptyStore) by constructor.
  assert (H2 : kidUnique emptyStore) by constructor.
  assert (H3 : JWKStore.add sampleParseJwk kidlessJwk emptyStore
               = (Ok 0, (JWKStore.add sampleParseJwk kidlessJwk emptyStore).2))
    by reflexivity.
  split; [by split_and! |].
  exact (add_then_get sampleParseJwk kidlessJwk emptyStore _ 0 H1 H2 H3).
Defined.

(** X7 — [generate], then [get].  In a store with unique kids, the record
    a successful [generate] returns is a new object, the last of [#keys]:
    the exported form [o] of the generated private key, stamped with the
    requested [alg] (whatever [alg] the export carried) and, when [o] has no
    kid, with the kid of [opts] if there is one.  Kids are still unique and
    [get] with the record's kid returns this very record. *)
Theorem generate_then_get
    (generateKeyPair : string → GenerateKeyPairOptions → Entropy → (string + KeyPair) * Entropy)
    (fromKeyLike : KeyLike → string + Obj)
    (alg : string) (opts : option Opts) (st st' : State) (l : loc) :
  wellFormed st → kidUnique st →
  JWKStore.generate generateKeyPair fromKeyLike alg opts st = (Ok l, st') →
  l = length (heap st) ∧
  last (keys st') = Some l ∧
  getProp (deref (heap st') l) "alg" = VStr alg ∧
  (∃ go kp e1 o,
     generateKeyPair alg go (entropy st) = (inr kp, e1) ∧
     fromKeyLike (privateKey kp) = inr o ∧
     (∀ p, p ≠ "kid" → p ≠ "alg" → getProp (deref (heap st') l) p = getProp o p) ∧
     (getProp o "kid" = VUndef → ∀ k, opts ≫= opt_kid = Some k →
        kidOf (heap st') l = VStr k)) ∧
  kidUnique st' ∧
  (∀ k, kidOf (heap st') l = VStr k →
        JWKStore.get (Some k) st' = (Ok (Some l), st')).
Proof.
  destruct st as [h ks e]. intros Hwf Huniq Hgen.
  destruct (generate_success generateKeyPair fromKeyLike alg opts h ks e l st' Hwf Huniq Hgen)
    as (-> & go & kp & e1 & o & ks' & Hgo & Hconv & -> & Hnd).
  cbn [heap keys entropy]. split_and!.
  - done.
  - by rewrite last_snoc.
  - rewrite deref_app_fresh, normalized_other by done. apply getProp_insert_eq.
  - exists go, kp, e1, o. split_and!; [done | done | |].
    + intros p Hp1 Hp2. rewrite deref_app_fresh, normalized_other by done.
      by apply getProp_insert_ne.
    + intros Ho k Hk. unfold kidOf. rewrite deref_app_fresh.
      apply normalized_opts_kid; [|done]. by rewrite getProp_insert_ne.
  - done.
  - intros k Hk. by apply get_tail_record.
Qed.

Lemma generate_then_get_witness :
  (wellFormed emptyStore ∧ kidUnique emptyStore ∧
   JWKStore.generate sampleGenerateKeyPair sampleFromKeyLike "RS256"
     (Some {| opt_kid := Some "a"; opt_crv := None |}) emptyStore
   = (Ok 0, (JWKStore.generate sampleGenerateKeyPair sampleFromKeyLike "RS256"
               (Some {| opt_kid := Some "a"; opt_crv := None |}) emptyStore).2)) ∧
  JWKStore.get (Some "a")
    (JWKStore.generate sampleGenerateKeyPair sampleFromKeyLike "RS256"
       (Some {| opt_kid := Some "a"; opt_crv := None |}) emptyStore).2
  = (Ok (Some 0),
     (JWKStore.generate sampleGenerateKeyPair sampleFromKeyLike "RS256"
        (Some {| opt_kid := Some "a"; opt_crv := None |}) emptyStore).2).
Proof.
  assert (H1 : wellFormed emptyStore) by constructor.
  assert (H2 : kidUnique emptyStore) by constructor.
  assert (H3 : JWKStore.generate sampleGenerateKeyPair sampleFromKeyLike "RS256"
                 (Some {| opt_kid := Some "a"; opt_crv := None |}) emptyStore
               = (Ok 0, (JWKStore.generate sampleGenerateKeyPair sampleFromKeyLike "RS256"
                           (Some {| opt_kid := Some "a"; opt_crv := None |}) emptyStore).2))
    by reflexivity.
  split; [by split_and! |].
  apply (generate_then_get sampleGenerateKeyPair sampleFromKeyLike "RS256"
           (Some {| opt_kid := Some "a"; opt_crv := None |}) emptyStore _ 0 H1 H2 H3).
  reflexivity.
Defined.

(** ** The facade: failures *)

(** X8 — a failed [generate] leaves no trace.  [generate] fails only with
    an exception of the key generator or of the key exporter, passes it on
    as it is, and then has created no object and changed [#keys] in no
    way: it has no check of its own that could fail. *)
Theorem generate_failure
    (generateKeyPair : string → GenerateKeyPairOptions → Entropy → (string + KeyPair) * Entropy)
    (fromKeyLike : KeyLike → string + Obj)
    (alg : string) (opts : option Opts) (st : State) (err : Error) :
  (JWKStore.generate generateKeyPair fromKeyLike alg opts st).1 = Thrown err →
  (∃ go msg,
     err = CollaboratorError msg ∧
     ((generateKeyPair alg go (entropy st)).1 = inl msg ∨
      ∃ kp, (generateKeyPair alg go (entropy st)).1 = inr kp ∧
            fromKeyLike (privateKey kp) = inl msg)) ∧
  heap (JWKStore.generate generateKeyPair fromKeyLike alg opts st).2 = heap st ∧
  keys (JWKStore.generate generateKeyPair fromKeyLike alg opts st).2 = keys st.
Proof.
  destruct st as [h ks e]. rewrite generate_eval. cbn [entropy heap keys].
  match goal with |- context [generateKeyPair alg ?go e] =>
    destruct (generateKeyPair alg go e) as [[msg|kp] e1] eqn:Hgen; set (go0 := go) in * end.
  - cbn [fst snd heap keys]. intros [= <-]. split; [|done].
    exists go0, msg. split; [done|]. left. by rewrite Hgen.
  - destruct (fromKeyLike (privateKey kp)) as [msg|o] eqn:Hconv.
    + cbn [fst snd heap keys]. intros [= <-]. split; [|done].
      exists go0, msg. split; [done|]. right. exists kp. by rewrite Hgen.
    + cbn zeta.
      destruct (rotator_add_spec
                  (h ++ [(normalized (<["alg" := VStr alg]> o) opts e1).1]) ks (length h)
                  (normalized (<["alg" := VStr alg]> o) opts e1).2) as (ks' & -> & _); [|done].
      unfold kidOf. rewrite deref_app_fresh. apply normalized_kid_defined.
Qed.

Lemma generate_failure_witness :
  (JWKStore.generate failingGenerateKeyPair sampleFromKeyLike "RS256" None mixedStore).1
  = Thrown (CollaboratorError "no key") ∧
  heap (JWKStore.generate failingGenerateKeyPair sampleFromKeyLike "RS256" None mixedStore).2
  = heap mixedStore ∧
  keys (JWKStore.generate failingGenerateKeyPair sampleFromKeyLike "RS256" None mixedStore).2
  = keys mixedStore.
Proof.
  assert (H : (JWKStore.generate failingGenerateKeyPair sampleFromKeyLike "RS256" None
                 mixedStore).1 = Thrown (CollaboratorError "no key")) by reflexivity.
  split; [exact H|].
  exact (proj2 (generate_failure failingGenerateKeyPair sampleFromKeyLike "RS256" None
                  mixedStore _ H)).
Defined.

(** X9 — when [add] succeeds, and when the parser's exception comes out.
    [add] returns a record exactly when the input's [alg] is a supported one
    and the parser turns the normalised copy into a node private key; it
    fails with the parser's own exception exactly when the [alg] is a
    supported one and the parser throws. *)
Theorem add_succeeds_iff (parseJwk : Obj → string + ParsedKey) (jwk : Obj) (st : State) :
  ((∃ l, (JWKStore.add parseJwk jwk st).1 = Ok l) ↔
     (∃ a, getProp jwk "alg" = VStr a ∧ a ∈ supportedAlgs) ∧
     ∃ k, parseJwk (normalized jwk None (entropy st)).1 = inr k ∧ usablePrivateKey k) ∧
  (∀ msg,
     (JWKStore.add parseJwk jwk st).1 = Thrown (CollaboratorError msg) ↔
     (∃ a, getProp jwk "alg" = VStr a ∧ a ∈ supportedAlgs) ∧
     parseJwk (normalized jwk None (entropy st)).1 = inl msg).
Proof.
  destruct st as [h ks e]. cbn [entropy]. rewrite add_eval. cbn zeta.
  setoid_rewrite <- includes_true.
  destruct (strict_eq (getProp jwk "alg") VUndef) eqn:Hundef.
  { apply strict_eq_true in Hundef. rewrite Hundef. cbn [fst includes]. split.
    - split; [intros [? H]; discriminate H | ]. intros [H _]. discriminate H.
    - intros msg. split; [intros H; discriminate H | intros [H _]; discriminate H]. }
  destruct (includes supportedAlgs (getProp jwk "alg")) eqn:Hinc; cbn [negb fst].
  2: { split.
       - split; [intros [? H]; discriminate H | intros [H _]; discriminate H].
       - intros msg. split; [intros H; discriminate H | intros [H _]; discriminate H]. }
  destruct (parseJwk (normalized jwk None e).1) as [msg0|k] eqn:Hparse.
  { cbn [fst]. split.
    - split; [by intros [? ?] | by intros (_ & ? & ? & _)].
    - intros msg. split; [by intros [= ->] | by intros [_ [= ->]]]. }
  destruct (negb (instanceofKeyObject k) || negb (typeIsPrivate k)) eqn:Hchk.
  { cbn [fst]. split.
    - split; [by intros [? ?]|]. intros (_ & k' & [= <-] & Hu).
      apply usablePrivateKey_checks in Hu. congruence.
    - intros msg. split; [done | by intros [_ ?]]. }
  destruct (rotator_add_spec (h ++ [(normalized jwk None e).1]) ks (length h)
              (normalized jwk None e).2) as (ks' & -> & _).
  { unfold kidOf. rewrite deref_app_fresh. apply normalized_kid_defined. }
  cbn [fst]. split.
  - split; [|by eauto]. intros _. split; [done|]. exists k. split; [done|].
    by apply usablePrivateKey_checks.
  - intros msg. split; [done | by intros [_ ?]].
Qed.

(** X10 — no parsing before the [alg] checks.  For an input whose [alg] is
    missing or not a supported one, the outcome of [add] and the state it
    leaves are the same whatever the parser would do: the parser is not
    consulted. *)
Theorem add_rejects_before_parsing (parseJwk parseJwk' : Obj → string + ParsedKey)
    (jwk : Obj) (st : State) :
  ¬ (∃ a, getProp jwk "alg" = VStr a ∧ a ∈ supportedAlgs) →
  JWKStore.add parseJwk jwk st = JWKStore.add parseJwk' jwk st.
Proof.
  intros Hbad. destruct st as [h ks e]. rewrite !add_eval. cbn zeta.
  destruct (strict_eq (getProp jwk "alg") VUndef); [done|].
  destruct (includes supportedAlgs (getProp jwk "alg")) eqn:Hinc; [|done].
  exfalso. apply Hbad. by apply includes_true.
Qed.

Lemma add_rejects_before_parsing_witness :
  ¬ (∃ a, getProp symmetricJwk "alg" = VStr a ∧ a ∈ supportedAlgs) ∧
  JWKStore.add sampleParseJwk symmetricJwk mixedStore
  = JWKStore.add failingParseJwk symmetricJwk mixedStore.
Proof.
  assert (H : ¬ (∃ a, getProp symmetricJwk "alg" = VStr a ∧ a ∈ supportedAlgs)).
  { intros (a & Ha & Hsup). vm_compute in Ha. injection Ha as <-.
    unfold supportedAlgs, privateToPublicTransformerMap in Hsup.
    cbn [fmap list_fmap fst] in Hsup.
    repeat (apply elem_of_cons in Hsup as [Hsup|Hsup]; [discriminate Hsup|]).
    by apply elem_of_nil in Hsup. }
  split; [exact H|].
  exact (add_rejects_before_parsing sampleParseJwk failingParseJwk symmetricJwk mixedStore H).
Defined.

(** ** Export *)

Lemma get_hit (st : State) (kid : option string) (l : loc) :
  (JWKStore.get kid st).1 = Ok (Some l) →
  ∃ pre post,
    keys st = pre ++ l :: post ∧
    (JWKStore.get kid st).2 = mkState (heap st) (pre ++ post ++ [l]) (entropy st).
Proof.
  unfold JWKStore.get. destruct kid as [k|].
  - destruct (next_pinned_spec (VStr k) st) as [[Hall ->]|(pre & x & post & Hks & _ & _ & ->)];
      [done | |]; cbn [fst snd]; [done|].
    intros [= ->]. by exists pre, post.
  - destruct st as [h [|x xs] e]; [done|].
    rewrite next_unpinned_cons. cbn [fst snd heap keys entropy].
    intros [= ->]. by exists [], xs.
Qed.

Lemma exportAll_true (os : list Obj) : exportAll true os = Ok (ExCopy <$> os).
Proof. induction os as [|o os IH]; [done|]. simpl. by rewrite IH. Qed.

(** X11 — the export follows the rotation.  After a [get] that returned
    the record [l], [toJSON(true)] lists the contents of the stored records
    in the order the selection left: the records before [l], those after
    it, then [l]. *)
Theorem export_follows_selection (st : State) (kid : option string) (l : loc) :
  wellFormed st →
  (JWKStore.get kid st).1 = Ok (Some l) →
  ∃ pre post out st2,
    keys st = pre ++ l :: post ∧
    JWKStore.toJSON true (JWKStore.get kid st).2 = (Ok out, st2) ∧
    resolve (heap st2) <$> out = (λ r, inr (deref (heap st) r)) <$> (pre ++ post ++ [l]).
Proof.
  intros Hwf Hget. destruct (get_hit st kid l Hget) as (pre & post & Hks & ->).
  assert (Hwf1 : wellFormed (mkState (heap st) (pre ++ post ++ [l]) (entropy st))).
  { unfold wellFormed in *. cbn [heap keys]. rewrite Hks in Hwf.
    rewrite Forall_app, Forall_cons in Hwf. destruct Hwf as (? & ? & ?).
    rewrite !Forall_app, Forall_singleton. done. }
  destruct (toJSON_observe true _ Hwf1) as (r & hs & Hrun & Hobs).
  cbn [heap keys entropy] in *. unfold observed in Hobs. rewrite exportAll_true in Hobs.
  destruct r as [out|]; [|done]. simpl in Hobs. injection Hobs as Hobs.
  exists pre, post, out. eexists. split; [done|]. split; [exact Hrun|].
  cbn [heap]. rewrite Hobs. done.
Qed.

Lemma export_follows_selection_witness :
  (wellFormed mixedStore ∧ (JWKStore.get None mixedStore).1 = Ok (Some 0)) ∧
  ∃ pre post out st2,
    keys mixedStore = pre ++ 0 :: post ∧
    JWKStore.toJSON true (JWKStore.get None mixedStore).2 = (Ok out, st2) ∧
    resolve (heap st2) <$> out
    = (λ r, inr (deref (heap mixedStore) r)) <$> (pre ++ post ++ [0]).
Proof.
  assert (H1 : wellFormed mixedStore) by (unfold wellFormed; cbn; repeat constructor).
  assert (H2 : (JWKStore.get None mixedStore).1 = Ok (Some 0)) by reflexivity.
  split; [by split | exact (export_follows_selection mixedStore None 0 H1 H2)].
Defined.

Lemma exportAll_first (b : bool) (pre post : list Obj) (o : Obj) (err : Error) :
  Forall (λ x, ∃ w, exportOne b x = Ok w) pre →
  exportOne b o = Thrown err →
  exportAll b (pre ++ o :: post) = Thrown err.
Proof.
  intros Hpre Ho. induction pre as [|x pre IH]; simpl.
  - by rewrite Ho.
  - apply Forall_cons in Hpre as [(w & ->) Hpre]. by rewrite IH.
Qed.

Lemma toJSON_first_error (st : State) (pre post : list loc) (l : loc) (err : Error) :
  wellFormed st →
  keys st = pre ++ l :: post →
  Forall (λ r, ∃ a, getProp (deref (heap st) r) "alg" = VStr a ∧ a ∈ supportedAlgs) pre →
  exportOne false (deref (heap st) l) = Thrown err →
  (KeyRotator.toJSON false st).1 = Thrown err.
Proof.
  intros Hwf Hks Hpre Hl.
  assert (Hall : exportAll false (deref (heap st) <$> keys st) = Thrown err).
  { rewrite Hks, fmap_app, fmap_cons. apply exportAll_first; [|done].
    apply Forall_fmap. eapply Forall_impl; [exact Hpre|].
    intros r (a & Ha & Hsup). destruct (exportOne_supported _ a Ha Hsup) as (f & _ & Hone).
    by eexists. }
  destruct (toJSON_exported false st Hwf) as (r & hs & -> & Hr). cbn [fst].
  destruct r as [vs|e]; [|congruence].
  exfalso. assert (Hin : l ∈ keys st).
  { rewrite Hks. apply elem_of_app. right. apply elem_of_cons. by left. }
  apply list_elem_of_lookup in Hin as (i & Hi).
  destruct (Forall2_lookup_l _ _ _ _ _ Hr Hi) as (v & _ & w & Hw & _). congruence.
Qed.

(** X12 — which error the public export raises.  When the records before
    [l] in [#keys] all have supported algorithms and [l] is the first that
    has not, [toJSON(false)] throws for [l]: the missing-alg assertion error
    when [l.alg] is not a string; the unsupported-alg error, carrying the
    value, when [l.alg] is a name unknown to the map and to
    [Object.prototype]; and a [TypeError] of the runtime when it is a name
    inherited from [Object.prototype] other than "constructor" and
    "toString". *)
Theorem export_first_offender (st : State) (pre post : list loc) (l : loc) :
  wellFormed st →
  keys st = pre ++ l :: post →
  Forall (λ r, ∃ a, getProp (deref (heap st) r) "alg" = VStr a ∧ a ∈ supportedAlgs) pre →
  ((∀ a, getProp (deref (heap st) l) "alg" ≠ VStr a) →
     (KeyRotator.toJSON false st).1 = Thrown MissingAlgField) ∧
  (∀ a, getProp (deref (heap st) l) "alg" = VStr a →
     (mapGet a = None →
        (KeyRotator.toJSON false st).1 = Thrown (UnsupportedAlg (VStr a))) ∧
     (∀ m, mapGet a = Some (InheritedMember m) →
           m ≠ proto_constructor → m ≠ proto_toString →
        (KeyRotator.toJSON false st).1 = Thrown TypeError)).
Proof.
  intros Hwf Hks Hpre. split; [|intros a Ha; split].
  - intros Hnostr. apply (toJSON_first_error st pre post l); [done..|].
    unfold exportOne.
    destruct (getProp (deref (heap st) l) "alg") as [| | | |a|]; try done.
    by destruct (Hnostr a).
  - intros Hnone. apply (toJSON_first_error st pre post l); [done..|].
    unfold exportOne. by rewrite Ha, Hnone.
  - intros m Hm Hc Ht. apply (toJSON_first_error st pre post l); [done..|].
    unfold exportOne. rewrite Ha, Hm. by destruct m.
Qed.

Lemma export_first_offender_witness :
  (wellFormed mixedStore ∧
   keys mixedStore = [0; 1] ++ 2 :: [] ∧
   Forall (λ r, ∃ a, getProp (deref (heap mixedStore) r) "alg" = VStr a ∧
                     a ∈ supportedAlgs) [0; 1] ∧
   ∀ a, getProp (deref (heap mixedStore) 2) "alg" ≠ VStr a) ∧
  (KeyRotator.toJSON false mixedStore).1 = Thrown MissingAlgField.
Proof.
  assert (H1 : wellFormed mixedStore) by (unfold wellFormed; cbn; repeat constructor).
  assert (H2 : keys mixedStore = [0; 1] ++ 2 :: []) by reflexivity.
  assert (H3 : Forall (λ r, ∃ a, getProp (deref (heap mixedStore) r) "alg" = VStr a ∧
                                 a ∈ supportedAlgs) [0; 1]).
  { repeat constructor.
    - exists "RS256". split; [reflexivity | vm_compute; repeat constructor].
    - exists "ES256". split; [reflexivity | vm_compute; repeat constructor]. }
  assert (H4 : ∀ a, getProp (deref (heap mixedStore) 2) "alg" ≠ VStr a)
    by (intros a; by vm_compute).
  split; [by split_and! |].
  exact (proj1 (export_first_offender mixedStore [0; 1] [] 2 H1 H2 H3) H4).
Defined.

(** ** Invariants of the store *)

Lemma allSupported_grow (h hs : Heap) (ks : list loc) (e e' : Entropy) :
  allSupported (mkState h ks e) → allSupported (mkState (h ++ hs) ks e').
Proof.
  intros Hall. pose proof (supported_wellFormed _ Hall) as Hwf.
  unfold allSupported, wellFormed in *. cbn [heap keys] in *.
  rewrite Forall_forall in Hall, Hwf. apply Forall_forall. intros l Hl.
  rewrite deref_app_l by (by apply Hwf). by apply Hall.
Qed.

Lemma allSupported_add_fresh (h : Heap) (o : Obj) (ks : list loc) (e e' : Entropy) :
  allSupported (mkState h ks e) →
  getProp o "kid" ≠ VUndef →
  (∃ a, getProp o "alg" = VStr a ∧ a ∈ supportedAlgs) →
  ∃ st2, KeyRotator.add (length h) (mkState (h ++ [o]) ks e') = (Ok tt, st2) ∧
         allSupported st2.
Proof.
  intros Hall Hkid Halg.
  destruct (rotator_add_spec (h ++ [o]) ks (length h) e') as (ks' & -> & Hks').
  { unfold kidOf. by rewrite deref_app_fresh. }
  eexists. split; [done|].
  pose proof (allSupported_grow h [o] ks e e' Hall) as Hgrow.
  unfold allSupported in *. cbn [heap keys] in *. apply Forall_app. split.
  - destruct Hks' as [->|(pre & x & post & -> & ->)]; [done|].
    rewrite Forall_app, Forall_cons in Hgrow. destruct Hgrow as (? & _ & ?).
    by apply Forall_app.
  - apply Forall_singleton. by rewrite deref_app_fresh.
Qed.

Section Conforming.

Variable generateKeyPair :
  string → GenerateKeyPairOptions → Entropy → (string + KeyPair) * Entropy.
Variable fromKeyLike : KeyLike → string + Obj.
Variable parseJwk : Obj → string + ParsedKey.
Hypothesis generator_conforms : conforming generateKeyPair.

Lemma perform_allSupported (c : Call) (st : State) :
  allSupported st →
  allSupported (perform generateKeyPair fromKeyLike parseJwk c st).
Proof.
  intros Hall. destruct st as [h ks e].
  destruct c as [alg opts|jwk|kid|b]; cbn [perform].
  - rewrite generate_eval.
    match goal with |- context [generateKeyPair alg ?go e] =>
      destruct (generateKeyPair alg go e) as [[msg|kp] e1] eqn:Hgen end; cbn [snd].
    { by apply (allSupported_grow h [] ks e e1) in Hall; rewrite app_nil_r in Hall. }
    destruct (fromKeyLike (privateKey kp)) as [msg|o]; cbn [snd].
    { by apply (allSupported_grow h [] ks e e1) in Hall; rewrite app_nil_r in Hall. }
    cbn zeta.
    destruct (allSupported_add_fresh h (normalized (<["alg" := VStr alg]> o) opts e1).1 ks e
                (normalized (<["alg" := VStr alg]> o) opts e1).2 Hall)
      as (st2 & -> & Hst2); [apply normalized_kid_defined | | done].
    exists alg. split; [|by eapply generator_conforms].
    rewrite normalized_other by done. apply getProp_insert_eq.
  - rewrite add_eval. cbn zeta.
    pose proof (allSupported_grow h [(normalized jwk None e).1] ks e
                  (normalized jwk None e).2 Hall) as Hgrow.
    destruct (strict_eq (getProp jwk "alg") VUndef); [done|].
    destruct (includes supportedAlgs (getProp jwk "alg")) eqn:Hinc; [|done]. cbn [negb].
    destruct (parseJwk (normalized jwk None e).1) as [msg|k]; [done|].
    destruct (negb (instanceofKeyObject k) || negb (typeIsPrivate k)); [done|].
    destruct (allSupported_add_fresh h (normalized jwk None e).1 ks e
                (normalized jwk None e).2 Hall)
      as (st2 & -> & Hst2); [apply normalized_kid_defined | | done].
    rewrite normalized_other by done. by apply includes_true.
  - unfold JWKStore.get.
    destruct (next_permutes (match kid with Some k => VStr k | None => VUndef end)
                (mkState h ks e)) as (r & ks' & -> & Hperm).
    unfold allSupported in *. cbn [snd heap keys entropy] in *. by rewrite Hperm.
  - unfold JWKStore.toJSON.
    destruct (toJSON_exported b _ (supported_wellFormed _ Hall)) as (r & hs & -> & _).
    cbn [snd heap keys entropy]. by apply (allSupported_grow h hs ks e e).
Qed.

Lemma reachable_allSupported (st : State) :
  reachable generateKeyPair fromKeyLike parseJwk st → allSupported st.
Proof.
  induction 1 as [e|c st Hreach IH]; [constructor | by apply perform_allSupported].
Qed.

End Conforming.

(** X13 — with a generator that accepts supported algorithms only, the
    public export cannot fail.  Then every record of every store built from
    [new JWKStore()] by calls has a supported algorithm, [toJSON(false)]
    returns one object per record, and none of these objects has a [d]. *)
Theorem conforming_store_exports
    (generateKeyPair : string → GenerateKeyPairOptions → Entropy → (string + KeyPair) * Entropy)
    (fromKeyLike : KeyLike → string + Obj)
    (parseJwk : Obj → string + ParsedKey)
    (st : State) :
  conforming generateKeyPair →
  reachable generateKeyPair fromKeyLike parseJwk st →
  allSupported st ∧
  ∃ out st',
    JWKStore.toJSON false st = (Ok out, st') ∧
    length out = length (keys st) ∧
    Forall (λ v, ∃ c, v = VRef c ∧ deref (heap st') c !! "d" = None) out.
Proof.
  intros Hconf Hreach.
  pose proof (reachable_allSupported _ _ _ Hconf st Hreach) as Hall.
  split; [done|]. unfold JWKStore.toJSON.
  destruct (toJSON_exported false st (supported_wellFormed st Hall)) as (r & hs & Hrun & Hr).
  unfold allSupported in Hall. rewrite Forall_forall in Hall.
  destruct r as [vs|err].
  - exists vs. eexists. split; [exact Hrun|]. split.
    + symmetry. by eapply Forall2_length.
    + apply Forall_forall. intros v Hv. apply list_elem_of_lookup in Hv as (i & Hi).
      destruct (Forall2_lookup_r _ _ _ _ _ Hr Hi) as (l & Hl & w & Hw & Hex).
      destruct (Hall l) as (a & Ha & Hsup); [by eapply list_elem_of_lookup_2|].
      destruct (exportOne_supported _ a Ha Hsup) as (f & _ & Hone).
      rewrite Hone in Hw. injection Hw as <-.
      destruct Hex as (c & -> & _ & Hc). exists c. split; [done|]. cbn [heap].
      rewrite Hc, removeAll_lookup. by destruct f.
  - exfalso. apply exportAll_Thrown in Hr as (o & Ho & Hthrown).
    apply list_elem_of_fmap in Ho as (l & -> & Hl).
    destruct (Hall l Hl) as (a & Ha & Hsup).
    destruct (exportOne_supported _ a Ha Hsup) as (f & _ & Hone). congruence.
Qed.

Lemma strictGenerateKeyPair_conforming : conforming strictGenerateKeyPair.
Proof.
  intros alg go e kp e'. unfold strictGenerateKeyPair.
  case_bool_decide; [done | discriminate].
Defined.

Lemma conforming_store_exports_witness :
  (conforming strictGenerateKeyPair ∧
   reachable strictGenerateKeyPair sampleFromKeyLike sampleParseJwk
     (perform strictGenerateKeyPair sampleFromKeyLike sampleParseJwk
        (CallAdd emptyKidJwk)
        (perform strictGenerateKeyPair sampleFromKeyLike sampleParseJwk
           (CallGenerate "ES256" None) emptyStore))) ∧
  allSupported
    (perform strictGenerateKeyPair sampleFromKeyLike sampleParseJwk
       (CallAdd emptyKidJwk)
       (perform strictGenerateKeyPair sampleFromKeyLike sampleParseJwk
          (CallGenerate "ES256" None) emptyStore)).
Proof.
  assert (H : reachable strictGenerateKeyPair sampleFromKeyLike sampleParseJwk
                (perform strictGenerateKeyPair sampleFromKeyLike sampleParseJwk
                   (CallAdd emptyKidJwk)
                   (perform strictGenerateKeyPair sampleFromKeyLike sampleParseJwk
                      (CallGenerate "ES256" None) emptyStore)))
    by (do 2 apply reachable_call; apply reachable_new).
  split; [split; [exact strictGenerateKeyPair_conforming | exact H] |].
  exact (proj1 (conforming_store_exports _ _ _ _ strictGenerateKeyPair_conforming H)).
Defined.

(** X14 — kids are unique in every store.  In every store built from
    [new JWKStore()] by calls of [generate], [add], [get] and [toJSON], no
    two stored records have the same kid, no record is stored twice, and
    every reference in [#keys] points to an object. *)
Theorem reachable_store_invariant
    (generateKeyPair : string → GenerateKeyPairOptions → Entropy → (string + KeyPair) * Entropy)
    (fromKeyLike : KeyLike → string + Obj)
    (parseJwk : Obj → string + ParsedKey)
    (st : State) :
  reachable generateKeyPair fromKeyLike parseJwk st →
  kidUnique st ∧ NoDup (keys st) ∧ wellFormed st.
Proof.
  intros Hreach.
  pose proof (reachable_kidUnique _ _ _ st Hreach) as Huniq.
  split_and!.
  - done.
  - unfold kidUnique in Huniq. by apply NoDup_fmap_1 in Huniq.
  - apply kidsDefined_wellFormed. by eapply reachable_kidsDefined.
Qed.

Lemma reachable_store_invariant_witness :
  reachable sampleGenerateKeyPair sampleFromKeyLike sampleParseJwk
    (perform sampleGenerateKeyPair sampleFromKeyLike sampleParseJwk
       (CallGenerate "RS256" (Some {| opt_kid := Some ""; opt_crv := None |}))
       (perform sampleGenerateKeyPair sampleFromKeyLike sampleParseJwk
          (CallAdd emptyKidJwk) emptyStore)) ∧
  kidUnique
    (perform sampleGenerateKeyPair sampleFromKeyLike sampleParseJwk
       (CallGenerate "RS256" (Some {| opt_kid := Some ""; opt_crv := None |}))
       (perform sampleGenerateKeyPair sampleFromKeyLike sampleParseJwk
          (CallAdd emptyKidJwk) emptyStore)).
Proof.
  assert (H : reachable sampleGenerateKeyPair sampleFromKeyLike sampleParseJwk
                (perform sampleGenerateKeyPair sampleFromKeyLike sampleParseJwk
                   (CallGenerate "RS256" (Some {| opt_kid := Some ""; opt_crv := None |}))
                   (perform sampleGenerateKeyPair sampleFromKeyLike sampleParseJwk
                      (CallAdd emptyKidJwk) emptyStore)))
    by (do 2 apply reachable_call; apply reachable_new).
  split; [exact H | exact (proj1 (reachable_store_invariant _ _ _ _ H))].
Defined.

(** ** The helpers *)

(** X15 — [removeKeys] works on copies.  For any list of names [fs],
    [removeKeys(fs, o)] changes no existing object, [o] included, and
    nothing of the rotator: it creates one object per name and returns the
    last, whose properties are those of [o] minus the names of [fs], in
    whatever order and however often they are listed.  With an empty list it
    creates nothing and returns [o] itself. *)
Theorem removeKeys_copies (fs : list string) (o : loc) (st : State) :
  ∃ c st',
    removeKeys fs o st = (Ok c, st') ∧
    keys st' = keys st ∧ entropy st' = entropy st ∧
    (∀ l, l < length (heap st) → heap st' !! l = heap st !! l) ∧
    length (heap st') = length (heap st) + length fs ∧
    (∀ k, deref (heap st') c !! k
          = if bool_decide (k ∈ fs) then None else deref (heap st) o !! k) ∧
    (fs = [] → c = o) ∧
    (fs ≠ [] → length (heap st) ≤ c < length (heap st')).
Proof.
  destruct st as [h ks e].
  destruct (removeKeys_eq fs o h ks e) as (hs & c & Hrun & Hlen & Hc & Hpos).
  exists c. eexists. split; [exact Hrun|]. cbn [heap keys entropy].
  split_and!; [done | done | | | | |].
  - intros l Hl. by rewrite lookup_app_l.
  - by rewrite length_app, Hlen.
  - intros k. rewrite Hc. apply removeAll_lookup.
  - intros ->. done.
  - intros Hne. rewrite length_app, Hlen, Hpos.
    destruct fs as [|f fs]; [done|]. simpl. lia.
Qed.

Lemma fromHexPair_hexDigit (b : byte) :
  fromHexPair (hexDigit (Byte.to_N b / 16)) (hexDigit (Byte.to_N b mod 16)) = Some b.
Proof. destruct b; vm_compute; reflexivity. Qed.

Lemma toHex_inj (bs bs' : list byte) : toHex bs = toHex bs' → bs = bs'.
Proof.
  revert bs'. induction bs as [|b bs IH]; intros [|b' bs'] Heq; simpl in Heq;
    try done.
  injection Heq as H1 H2 Hrest.
  pose proof (fromHexPair_hexDigit b) as Hb. rewrite H1, H2 in Hb.
  rewrite fromHexPair_hexDigit in Hb. injection Hb as <-.
  f_equal. by apply IH.
Qed.

(** X16 — the random kid keeps all of its randomness.  Two runs of
    [generateRandomKid] give the same kid exactly when the random source
    gives them the same 40 bytes: the hex encoding loses nothing. *)
Theorem random_kid_determines_bytes (st1 st2 : State) :
  (generateRandomKid st1).1 = (generateRandomKid st2).1 ↔
  ∀ i, i < 40 → entropy st1 i = entropy st2 i.
Proof.
  unfold generateRandomKid, randomBytes. cbn [fst]. split.
  - remember (map (entropy st1) (seq 0 40)) as a eqn:Ha.
    remember (map (entropy st2) (seq 0 40)) as b eqn:Hb.
    intros [= Heq]. apply toHex_inj in Heq. subst a b.
    intros i Hi. apply (proj1 List.map_ext_in_iff Heq).
    apply in_seq. lia.
  - intros Hsame. do 2 f_equal. apply List.map_ext_in.
    intros i Hi. apply in_seq in Hi. apply Hsame. lia.
Qed.

(** ** The two membership tests *)

Lemma assoc_is_Some {A} (k : string) (l : list (string * A)) :
  is_Some (assoc k l) ↔ k ∈ l.*1.
Proof.
  induction l as [|[k' a] l IH]; simpl.
  - split; [by intros [? ?] | by intros ?%elem_of_nil].
  - case_decide as Hk.
    + subst. split; [intros _; by apply list_elem_of_here | by eauto].
    + rewrite IH. split; [by apply list_elem_of_further|].
      intros [?|?]%elem_of_cons; done.
Qed.

(** X17 — [in] and [includes] do not test the same thing.  The export's
    test [alg in privateToPublicTransformerMap] holds for the supported
    algorithms and also for the twelve names every object inherits from
    [Object.prototype]; the test of [add], [supportedAlgs.includes(alg)],
    holds for the supported algorithms only, and none of the inherited
    names is one of them. *)
Theorem in_test_accepts_more (a : string) :
  (mapHas a = true ↔ a ∈ supportedAlgs ∨ a ∈ ObjectPrototype.*1) ∧
  (includes supportedAlgs (VStr a) = true ↔ a ∈ supportedAlgs) ∧
  (a ∈ ObjectPrototype.*1 → (a ∉ supportedAlgs) ∧ mapHas a = true).
Proof.
  assert (Hhas : mapHas a = true ↔ a ∈ supportedAlgs ∨ a ∈ ObjectPrototype.*1).
  { unfold mapHas, mapGet, supportedAlgs. rewrite bool_decide_eq_true.
    rewrite <- !assoc_is_Some.
    destruct (assoc a privateToPublicTransformerMap) as [t|]; [split; by eauto|].
    destruct (assoc a ObjectPrototype) as [m|]; simpl.
    - split; [by eauto | by eauto].
    - split; [by intros [? ?] | by intros [[? ?]|[? ?]]]. }
  split_and!.
  - done.
  - simpl. apply bool_decide_eq_true.
  - intros Hproto. split; [|apply Hhas; by right].
    unfold supportedAlgs, privateToPublicTransformerMap, ObjectPrototype in *.
    cbn [fmap list_fmap fst] in *.
    repeat (apply elem_of_cons in Hproto as [->|Hproto];
            [intros H; repeat (apply elem_of_cons in H as [H|H]; [discriminate H|]);
             by apply elem_of_nil in H |]).
    by apply elem_of_nil in Hproto.
Qed.

Lemma in_test_accepts_more_witness :
  "valueOf" ∈ ObjectPrototype.*1 ∧ ("valueOf" ∉ supportedAlgs) ∧ mapHas "valueOf" = true.
Proof.
  assert (H : "valueOf" ∈ ObjectPrototype.*1).
  { unfold ObjectPrototype. cbn [fmap list_fmap fst].
    repeat first [apply list_elem_of_here | apply list_elem_of_further]. }
  split; [exact H | exact (proj2 (proj2 (in_test_accepts_more "valueOf")) H)].
Defined.

(** ** What [add] and [generate] keep *)

Lemma filter_all {A} (P : A → Prop) `{!∀ x, Decision (P x)} (l : list A) :
  Forall P l → filter P l = l.
Proof.
  induction 1 as [|x l Hx Hl IH]; [done|].
  rewrite filter_cons_True by done. by rewrite IH.
Qed.

Lemma filter_first_only {A} (P : A → Prop) `{!∀ x, Decision (P x)}
    (pre post : list A) (x : A) :
  Forall P pre → ¬ P x → Forall P post → filter P (pre ++ x :: post) = pre ++ post.
Proof.
  intros Hpre Hx Hpost. rewrite filter_app, filter_cons_False by done.
  by rewrite !filter_all.
Qed.

(** With unique kids, the rotator keeps exactly the records whose kid is
    not the new record's. *)
Lemma rotator_add_filter (h : Heap) (ks : list loc) (key : loc) (e : Entropy) :
  kidOf h key ≠ VUndef →
  NoDup (kidOf h <$> ks) →
  KeyRotator.add key (mkState h ks e)
  = (Ok tt, mkState h (filter (λ r, kidOf h r ≠ kidOf h key) ks ++ [key]) e).
Proof.
  intros Hdef Hnd.
  destruct (findIndex_spec (λ z, strict_eq (kidOf h z) (kidOf h key)) ks)
    as [[_ Hall]|(pre & x & post & -> & Hpre & Hx & _)].
  - assert (Hne : Forall (λ r, kidOf h r ≠ kidOf h key) ks).
    { eapply Forall_impl; [exact Hall|]. intros l Hl. by apply strict_eq_false. }
    rewrite filter_all by done. by apply rotator_add_fresh.
  - apply strict_eq_true in Hx.
    assert (Hpre' : Forall (λ r, kidOf h r ≠ kidOf h key) pre).
    { eapply Forall_impl; [exact Hpre|]. intros l Hl. by apply strict_eq_false. }
    rewrite fmap_app, fmap_cons in Hnd.
    apply NoDup_app in Hnd as (_ & _ & Hrest). apply NoDup_cons in Hrest as [Hnotin _].
    assert (Hpost : Forall (λ r, kidOf h r ≠ kidOf h key) post).
    { apply Forall_forall. intros l Hl Heq. apply Hnotin.
      rewrite Hx, <- Heq. by apply list_elem_of_fmap_2. }
    rewrite filter_first_only; [|done | by intros ? | done].
    rewrite <- app_assoc. by apply rotator_add_found.
Qed.

(** X18 — what [add] keeps.  In a store with unique kids, a successful
    [add] changes no stored object and keeps, in their order, exactly the
    stored records whose kid differs from the new record's; the new record
    comes after them.  So a key with a new kid makes the store one record
    longer, and a key with a stored kid takes that record's place in the
    store, at the tail. *)
Theorem add_keeps_other_kids (parseJwk : Obj → string + ParsedKey) (jwk : Obj)
    (st st' : State) (l : loc) :
  wellFormed st → kidUnique st →
  JWKStore.add parseJwk jwk st = (Ok l, st') →
  (∀ r, r < length (heap st) → heap st' !! r = heap st !! r) ∧
  keys st'
  = filter (λ r, kidOf (heap st') r ≠ kidOf (heap st') l) (keys st) ++ [l].
Proof.
  destruct st as [h ks e]. intros Hwf Huniq. rewrite add_eval. cbn zeta.
  destruct (strict_eq (getProp jwk "alg") VUndef); [done|].
  destruct (negb (includes supportedAlgs (getProp jwk "alg"))); [done|].
  destruct (parseJwk (normalized jwk None e).1) as [msg|k]; [done|].
  destruct (negb (instanceofKeyObject k) || negb (typeIsPrivate k)); [done|].
  rewrite rotator_add_filter.
  - intros [= <- <-]. cbn [heap keys]. split; [|done].
    intros r Hr. by rewrite lookup_app_l.
  - unfold kidOf. rewrite deref_app_fresh. apply normalized_kid_defined.
  - by apply (kidUnique_grow h _ ks e e).
Qed.

Lemma add_keeps_other_kids_witness :
  (wellFormed mixedStore ∧ kidUnique mixedStore ∧
   JWKStore.add sampleParseJwk
     {[ "kid" := VStr "a"; "alg" := VStr "ES256"; "x" := VStr "new" ]} mixedStore
   = (Ok 3, (JWKStore.add sampleParseJwk
               {[ "kid" := VStr "a"; "alg" := VStr "ES256"; "x" := VStr "new" ]}
               mixedStore).2)) ∧
  keys (JWKStore.add sampleParseJwk
          {[ "kid" := VStr "a"; "alg" := VStr "ES256"; "x" := VStr "new" ]} mixedStore).2
  = [1; 2; 3].
Proof.
  assert (H1 : wellFormed mixedStore) by (unfold wellFormed; cbn; repeat constructor).
  assert (H2 : kidUnique mixedStore).
  { unfold kidUnique. apply (bool_decide_unpack _). by vm_compute. }
  assert (H3 : JWKStore.add sampleParseJwk
                 {[ "kid" := VStr "a"; "alg" := VStr "ES256"; "x" := VStr "new" ]} mixedStore
               = (Ok 3, (JWKStore.add sampleParseJwk
                           {[ "kid" := VStr "a"; "alg" := VStr "ES256"; "x" := VStr "new" ]}
                           mixedStore).2)) by reflexivity.
  split; [by split_and! |].
  rewrite (proj2 (add_keeps_other_kids sampleParseJwk _ mixedStore _ 3 H1 H2 H3)).
  reflexivity.
Defined.

(** X19 — what [generate] keeps.  In a store with unique kids, a
    successful [generate] changes no stored object and keeps, in their
    order, exactly the stored records whose kid differs from the new
    record's; the new record comes after them. *)
Theorem generate_keeps_other_kids
    (generateKeyPair : string → GenerateKeyPairOptions → Entropy → (string + KeyPair) * Entropy)
    (fromKeyLike : KeyLike → string + Obj)
    (alg : string) (opts : option Opts) (st st' : State) (l : loc) :
  wellFormed st → kidUnique st →
  JWKStore.generate generateKeyPair fromKeyLike alg opts st = (Ok l, st') →
  (∀ r, r < length (heap st) → heap st' !! r = heap st !! r) ∧
  keys st'
  = filter (λ r, kidOf (heap st') r ≠ kidOf (heap st') l) (keys st) ++ [l].
Proof.
  destruct st as [h ks e]. intros Hwf Huniq. rewrite generate_eval.
  match goal with |- context [generateKeyPair alg ?go e] =>
    destruct (generateKeyPair alg go e) as [[msg|kp] e1]; [done|] end.
  destruct (fromKeyLike (privateKey kp)) as [msg|o]; [done|]. cbn zeta.
  rewrite rotator_add_filter.
  - intros [= <- <-]. cbn [heap keys]. split; [|done].
    intros r Hr. by rewrite lookup_app_l.
  - unfold kidOf. rewrite deref_app_fresh. apply normalized_kid_defined.
  - by apply (kidUnique_grow h _ ks e e1).
Qed.

Lemma generate_keeps_other_kids_witness :
  (wellFormed mixedStore ∧ kidUnique mixedStore ∧
   JWKStore.generate sampleGenerateKeyPair sampleFromKeyLike "RS256"
     (Some {| opt_kid := Some "b"; opt_crv := None |}) mixedStore
   = (Ok 3, (JWKStore.generate sampleGenerateKeyPair sampleFromKeyLike "RS256"
               (Some {| opt_kid := Some "b"; opt_crv := None |}) mixedStore).2)) ∧
  keys (JWKStore.generate sampleGenerateKeyPair sampleFromKeyLike "RS256"
          (Some {| opt_kid := Some "b"; opt_crv := None |}) mixedStore).2
  = [0; 2; 3].
Proof.
  assert (H1 : wellFormed mixedStore) by (unfold wellFormed; cbn; repeat constructor).
  assert (H2 : kidUnique mixedStore).
  { unfold kidUnique. apply (bool_decide_unpack _). by vm_compute. }
  assert (H3 : JWKStore.generate sampleGenerateKeyPair sampleFromKeyLike "RS256"
                 (Some {| opt_kid := Some "b"; opt_crv := None |}) mixedStore
               = (Ok 3, (JWKStore.generate sampleGenerateKeyPair sampleFromKeyLike "RS256"
                           (Some {| opt_kid := Some "b"; opt_crv := None |}) mixedStore).2))
    by reflexivity.
  split; [by split_and! |].
  rewrite (proj2 (generate_keeps_other_kids sampleGenerateKeyPair sampleFromKeyLike "RS256"
                    _ mixedStore _ 3 H1 H2 H3)).
  reflexivity.
Defined.

(** X20 — a repeated pinned selection changes nothing more.  With unique
    kids, once [get(kid)] has returned a record, a second [get(kid)]
    returns the same record and leaves [#keys] as the first call left it:
    the record is already at the tail. *)
Theorem get_pinned_again (st st1 : State) (k : string) (l : loc) :
  kidUnique st →
  JWKStore.get (Some k) st = (Ok (Some l), st1) →
  JWKStore.get (Some k) st1 = (Ok (Some l), st1).
Proof.
  unfold kidUnique. intros Hnd Hget.
  unfold JWKStore.get in Hget.
  destruct (next_pinned_spec (VStr k) st) as [[_ Hnone]|(pre & x & post & Hks & Hx & _ & Hrun)];
    [done | congruence |].
  rewrite Hrun in Hget. injection Hget as -> <-.
  rewrite app_assoc. apply get_tail_record; [|done].
  rewrite <- app_assoc. rewrite Hks in Hnd.
  eapply NoDup_Permutation_proper; [|exact Hnd].
  apply fmap_Permutation. apply Permutation_app_head. symmetry.
  apply Permutation_cons_append.
Qed.

Lemma get_pinned_again_witness :
  (kidUnique mixedStore ∧
   JWKStore.get (Some "a") mixedStore
   = (Ok (Some 0), (JWKStore.get (Some "a") mixedStore).2)) ∧
  JWKStore.get (Some "a") (JWKStore.get (Some "a") mixedStore).2
  = (Ok (Some 0), (JWKStore.get (Some "a") mixedStore).2).
Proof.
  assert (H1 : kidUnique mixedStore).
  { unfold kidUnique. apply (bool_decide_unpack _). by vm_compute. }
  assert (H2 : JWKStore.get (Some "a") mixedStore
               = (Ok (Some 0), (JWKStore.get (Some "a") mixedStore).2)) by reflexivity.
  split; [by split | exact (get_pinned_again mixedStore _ "a" 0 H1 H2)].
Defined.
